(** * cf-kv-crud: the KV controller and its router guards

    A shallow embedding of [src/plugins/KV.ts] (class [KVController]) and of
    the route table of [src/router/route.ts].

    The controller is asynchronous code over a [KVNamespace] binding.  Every
    [await this.kv.*] is one interaction with the key-value service, so a
    method is embedded as a tree of service calls ([prog]): a node is one
    call, its branches are the answers the service may give (a rejection or a
    result).  Running a tree against a store ([run]) gives the behaviour of
    one request in isolation; advancing two trees alternately ([interleave])
    gives the behaviour of two requests whose awaits overlap. *)

From stdpp Require Import gmap strings list fin_maps.
From Stdlib Require Import ZArith.
From Stdlib.Strings Require Import Byte.

Local Open Scope Z_scope.
Local Open Scope string_scope.
Local Open Scope list_scope.

(** ** JavaScript values *)

(** [string | ArrayBuffer | ArrayBufferView | ReadableStream]: a value is
    text or a run of bytes. *)
Inductive kvValue : Type :=
| Text (s : string)
| Bytes (b : list byte).

(** An object with string properties, such as the metadata attached to a
    key ([Record<string, any>]). *)
Abbreviation jsObject := (gmap string string).

(** A thrown value.  The service and the engine throw [Error] objects; what
    the controller looks at are their [name] and [message]. *)
Record JsError : Type := mkError { name : string; message : string }.

Definition Error (msg : string) : JsError := mkError "Error" msg.
Definition TypeError (msg : string) : JsError := mkError "TypeError" msg.

(** [Error.prototype.toString]: the name alone, the message alone, or
    ["name: message"]. *)
Definition toString (e : JsError) : string :=
  if decide (name e = "") then message e
  else if decide (message e = "") then name e
  else name e +:+ ": " +:+ message e.

(** [new Error(error)] with a caught value as the argument: the argument is
    converted to a string, which becomes the message of a plain [Error]. *)
Definition new_Error (error : JsError) : JsError := Error (toString error).

(** [a ?? b] *)
Definition nullish {A : Type} (a : option A) (b : A) : A :=
  match a with
  | Some x => x
  | None => b
  end.

(** [!s] for a string that may be null or undefined. *)
Definition falsy (s : option string) : bool :=
  match s with
  | None => true
  | Some x => bool_decide (x = "")
  end.

(** [keys.includes(key)] *)
Definition includes (keys : list string) (key : string) : bool :=
  bool_decide (key ∈ keys).

(** The message of the engine's [TypeError] for [null.prop]. *)
Definition null_property_message (prop : string) : string :=
  "Cannot read properties of null (reading '" +:+ prop +:+ "')".

(** ** The KVNamespace binding *)

(** [KVNamespacePutOptions] *)
Record KVNamespacePutOptions : Type := mkPutOptions {
  expiration : option Z;
  expirationTtl : option Z;
  metadata : option jsObject
}.

(** One element of the [keys] array of a list result. *)
Record KVNamespaceListKey : Type := mkListKey { key_name : string }.

(** The calls the controller makes on the binding, with their arguments. *)
Inductive kvCall : Type :=
| kv_get (key : string) (options : list string)
| kv_getWithMetadata (key : string) (options : option KVNamespacePutOptions) (cacheTtl : Z)
| kv_put (key : string) (value : kvValue) (options : KVNamespacePutOptions)
| kv_delete (key : string)
| kv_list.

(** What a call resolves to when the service does not reject it. *)
Definition answer (c : kvCall) : Type :=
  match c with
  | kv_get _ _ => option kvValue
  | kv_getWithMetadata _ _ _ => (option kvValue * option jsObject)%type
  | kv_put _ _ _ => unit
  | kv_delete _ => unit
  | kv_list => list KVNamespaceListKey
  end.

(** ** Asynchronous code as a tree of service calls *)

Inductive prog (A : Type) : Type :=
| Ret (a : A)
| Throw (e : JsError)
| Call (c : kvCall) (k : JsError + answer c → prog A).

Arguments Ret {A} a.
Arguments Throw {A} e.
Arguments Call {A} c k.

Fixpoint bind {A B : Type} (p : prog A) (f : A → prog B) : prog B :=
  match p with
  | Ret a => f a
  | Throw e => Throw e
  | Call c k => Call c (λ r, bind (k r) f)
  end.

#[export] Instance prog_ret : MRet prog := λ A a, Ret a.
#[export] Instance prog_bind : MBind prog := λ A B f p, bind p f.

(** [try { p } catch (error) { h error }] *)
Fixpoint try_catch {A : Type} (p : prog A) (h : JsError → prog A) : prog A :=
  match p with
  | Ret a => Ret a
  | Throw e => h e
  | Call c k => Call c (λ r, try_catch (k r) h)
  end.

(** [await this.kv.<call>]: a rejection is thrown at the await. *)
Definition await (c : kvCall) : prog (answer c) :=
  Call c (λ r, match r with
               | inl e => Throw e
               | inr a => Ret a
               end).

(** [for await (const x of xs) { await body(x) }] over an array. *)
Fixpoint for_await {X : Type} (xs : list X) (body : X → prog unit) : prog unit :=
  match xs with
  | [] => Ret tt
  | x :: rest => _ ← body x; for_await rest body
  end.

(** A promise that is already running is settled, not awaited: its outcome
    is kept and nothing is thrown. *)
Definition settle {A : Type} (p : prog A) : prog (JsError + A) :=
  try_catch (a ← p; Ret (inr a)) (λ e, Ret (inl e)).

(** [await Promise.all(ps)] where [ps] was built by a synchronous [map]:
    every promise of [ps] has been started, in array order, before the
    await.  A rejection does not stop the others; the result is the array of
    results, or the rejection of the first promise that rejects (taken here
    in array order). *)
Fixpoint Promise_all {A : Type} (ps : list (prog A)) : prog (list A) :=
  match ps with
  | [] => Ret []
  | p :: rest =>
      r ← settle p;
      rs ← settle (Promise_all rest);
      match r, rs with
      | inl e, _ => Throw e
      | inr _, inl e => Throw e
      | inr a, inr others => Ret (a :: others)
      end
  end.

(** ** The controller, [class KVController] *)

Definition VALUE_TYPE_TEXT : string := "TEXT".
Definition VALUE_TYPE_STREAM : string := "STREAM".

(** [constructor(kv)]: [kv] is what [env[...]] gave, possibly undefined. *)
Definition new_KVController (kv : bool) : prog unit :=
  if negb kv then Throw (Error "KV Namespace not found") else Ret tt.

Definition getKeys : prog (list string) :=
  keys ← await kv_list;
  Ret (map key_name keys).

Definition hasKey (key : string) : prog bool :=
  keys ← getKeys;
  Ret (includes keys key).

Definition addItem (key : string) (value : kvValue)
    (options : option KVNamespacePutOptions) : prog unit :=
  try_catch
    (exists_ ← hasKey key;
     if (exists_ : bool) then Throw (Error ("Key " +:+ key +:+ " already exists"))
     else await (kv_put key value
                   {| metadata := options ≫= metadata;
                      expirationTtl := Some (nullish (options ≫= expirationTtl) 60);
                      expiration := Some (nullish (options ≫= expiration) 60) |}))
    (λ error, Throw (new_Error error)).

Record Item : Type := mkItem {
  item_key : string;
  item_value : kvValue;
  item_options : option KVNamespacePutOptions
}.

Definition addItems (items : list Item) : prog unit :=
  try_catch
    (if bool_decide (length items = 0%nat) then Throw (Error "No items to add")
     else for_await items
            (λ item, addItem (item_key item) (item_value item) (item_options item)))
    (λ error, Throw (new_Error error)).

Definition updateItem (key : string) (value : kvValue)
    (options : option KVNamespacePutOptions) : prog unit :=
  try_catch
    (r ← await (kv_getWithMetadata key options 60);
     let metadata0 := snd r in
     await (kv_put key value
              {| expiration := options ≫= expiration;
                 expirationTtl := options ≫= expirationTtl;
                 metadata := metadata0 |}))
    (λ error, Throw (new_Error error)).

(** The object [{ value, valueType }] that [getItem] resolves to. *)
Record ItemResult : Type := mkItemResult {
  result_value : option kvValue;
  result_valueType : option string
}.

(** [metadata!.valueType]: reading a property of [null] throws. *)
Definition metadata_valueType (metadata0 : option jsObject) : prog (option string) :=
  match metadata0 with
  | None => Throw (TypeError (null_property_message "valueType"))
  | Some m => Ret (m !! "valueType")
  end.

(** The callers compare what [getItem] resolves to with [null], so the
    result is a nullable reference; [Some] is an object. *)
Definition getItem (key : string) (options : list string) : prog (option ItemResult) :=
  try_catch
    (value ← await (kv_get key options);
     r ← await (kv_getWithMetadata key None 60);
     valueType ← metadata_valueType (snd r);
     Ret (Some {| result_value := value; result_valueType := valueType |}))
    (λ error, Throw (new_Error error)).

Definition deleteItem (key : string) : prog unit :=
  try_catch (await (kv_delete key)) (λ error, Throw (new_Error error)).

Definition deleteItems (keys : list string) : prog unit :=
  try_catch
    (if bool_decide (length keys = 0%nat) then Throw (Error "No keys to delete")
     else for_await keys (λ key, deleteItem key))
    (λ error, Throw (new_Error error)).

Definition clear : prog unit :=
  try_catch
    (keys ← await kv_list;
     _ ← Promise_all (map (λ key, await (kv_delete (key_name key)) : prog unit) keys);
     Ret tt)
    (λ error, Throw (new_Error error)).

Record Row : Type := mkRow {
  row_key : string;
  row_value : option kvValue;
  row_valueType : string
}.

Definition not_viewable : string := "暂不支持查看，请下载后查看".

(** The loop of [getAll], with the array [result] it pushes to. *)
Fixpoint getAll_loop (keys : list KVNamespaceListKey) (result : list Row)
    : prog (list Row) :=
  match keys with
  | [] => Ret result
  | key :: rest =>
      r ← await (kv_getWithMetadata (key_name key) None 60);
      let valueType := nullish (snd r ≫= (λ m : jsObject, m !! "valueType")) VALUE_TYPE_TEXT in
      getAll_loop rest
        (result ++ [ {| row_key := key_name key;
                        row_value := if bool_decide (valueType = VALUE_TYPE_TEXT)
                                     then fst r else Some (Text not_viewable);
                        row_valueType := valueType |} ])
  end.

Definition getAll : prog (list Row) :=
  keys ← await kv_list;
  getAll_loop keys [].

(** ** The key-value service *)

(** What the service keeps under a key: the value and the options of the
    put that wrote it (its metadata and expiration settings). *)
Record entry : Type := mkEntry {
  stored_value : kvValue;
  stored_options : KVNamespacePutOptions
}.

(** Modelled from the spec: the external key-value service behind the
    [KVNamespace] binding, whose code is not part of the repository.  It
    holds entries (a value with its attached metadata) and serves get, put,
    delete and list.  [list_limit] is the size of the page of keys one list
    call returns.  [faults] is the fate of the coming calls, in order:
    [Some e] rejects the call with [e] and changes no entry, [None] (or the
    end of the schedule) serves it.  [log] records the calls received. *)
Record store : Type := mkStore {
  entries : gmap string entry;
  list_limit : nat;
  faults : list (option JsError);
  log : list kvCall
}.

(** The keys one list call returns. *)
Definition listed (s : store) : list string :=
  take (list_limit s) (map fst (map_to_list (entries s))).

Definition stored_metadata (s : store) (key : string) : option jsObject :=
  entries s !! key ≫= (λ e, metadata (stored_options e)).

(** A call that is served: its result and the entries afterwards. *)
Definition serve (c : kvCall) (s : store) : answer c * gmap string entry :=
  match c with
  | kv_get key _ => (stored_value <$> entries s !! key, entries s)
  | kv_getWithMetadata key _ _ =>
      ((stored_value <$> entries s !! key, stored_metadata s key), entries s)
  | kv_put key value options =>
      (tt, <[key := {| stored_value := value; stored_options := options |}]> (entries s))
  | kv_delete key => (tt, delete key (entries s))
  | kv_list => (map mkListKey (listed s), entries s)
  end.

(** The rejection the schedule holds for the coming call, if any. *)
Definition next_fault (s : store) : option JsError :=
  match faults s with
  | Some e :: _ => Some e
  | _ => None
  end.

(** The store once call [c] has been received and left the entries [m]. *)
Definition received (s : store) (c : kvCall) (m : gmap string entry) : store :=
  {| entries := m; list_limit := list_limit s;
     faults := tail (faults s); log := log s ++ [c] |}.

Definition perform (c : kvCall) (s : store) : (JsError + answer c) * store :=
  match next_fault s with
  | Some e => (inl e, received s c (entries s))
  | None => (inr (fst (serve c s)), received s c (snd (serve c s)))
  end.

(** One request, from start to end, with nothing else touching the store. *)
Fixpoint run {A : Type} (p : prog A) (s : store) : (JsError + A) * store :=
  match p with
  | Ret a => (inr a, s)
  | Throw e => (inl e, s)
  | Call c k => run (k (fst (perform c s))) (snd (perform c s))
  end.

(** One request advanced by one service call. *)
Definition step {A : Type} (p : prog A) (s : store) : prog A * store :=
  match p with
  | Call c k => (k (fst (perform c s)), snd (perform c s))
  | _ => (p, s)
  end.

(** Two requests on the same store; the schedule says whose call the
    service receives next ([true]: the first request's). *)
Fixpoint interleave {A B : Type} (schedule : list bool)
    (p : prog A) (q : prog B) (s : store) : prog A * prog B * store :=
  match schedule with
  | [] => (p, q, s)
  | true :: rest => interleave rest (fst (step p s)) q (snd (step p s))
  | false :: rest => interleave rest p (fst (step q s)) (snd (step q s))
  end.

(** A store with the given entries that lists a thousand keys a call,
    serves every call and has received none. *)
Definition quiet (m : gmap string entry) : store :=
  {| entries := m; list_limit := 1000; faults := []; log := [] |}.

(** The coming [n] calls are served. *)
Definition serves (n : nat) (s : store) : Prop :=
  Forall (λ f, f = None) (take n (faults s)).

(** ** The route table, [src/router/route.ts] *)

Record Request : Type := mkRequest {
  origin : string;
  searchParams : gmap string string;
  headers : gmap string string;
  body : JsError + jsObject
}.

(** [env]: the token, the list of store names, and which names are bound to
    a KV namespace. *)
Record Env : Type := mkEnv {
  AUTH_TOKEN : string;
  KV_KEYS : option string;
  kv_bound : string → bool
}.

(** [env[request.headers.get('kv')!]]: a null header reads the property
    named "null". *)
Definition env_kv (request : Request) (env : Env) : bool :=
  kv_bound env (default "null" (headers request !! "kv")).

(** What a handler passes to [ServiceResponse.onSuccessJson]. *)
Inductive Json : Type :=
| JNone
| JString (s : string)
| JItem (key : string) (value : option ItemResult)
| JRows (rows : list Row)
| JKeys (keys : list string)
| JUpload (fileName download preview : string).

(** The responses of [ServiceResponse], by the method that builds them. *)
Inductive Response : Type :=
| onSuccessJson (data : Json)
| onSuccessStream (data : option ItemResult) (msg : string)
| onBadRequest (msg : string)
| onUnauthorized (msg : string)
| onNotFound (msg : string)
| onError (msg : string).

(** Modelled from the spec: the HTTP status of a [ServiceResponse], whose
    code is not part of the sources at hand; the spec gives the mapping
    400/401/404/500 for the four failures. *)
Definition status (r : Response) : Z :=
  match r with
  | onSuccessJson _ => 200
  | onSuccessStream _ _ => 200
  | onBadRequest _ => 400
  | onUnauthorized _ => 401
  | onNotFound _ => 404
  | onError _ => 500
  end.

(** [value === null] and [!value] on a reference. *)
Definition is_null {A : Type} (v : option A) : bool :=
  match v with
  | None => true
  | Some _ => false
  end.

Definition excute_get (request : Request) (env : Env) : prog Response :=
  try_catch
    (let key := searchParams request !! "key" in
     if falsy key then Ret (onBadRequest "KEY Not Found")
     else
       _ ← new_KVController (env_kv request env);
       value ← getItem (default "" key) [];
       if is_null value then Ret (onNotFound "Not Found")
       else Ret (onSuccessJson (JItem (default "" key) value)))
    (λ error, Ret (onError (message error))).

Definition excute_update (request : Request) (env : Env) : prog Response :=
  try_catch
    (match body request with
     | inl e => Throw e
     | inr body0 =>
         if falsy (body0 !! "key") || falsy (body0 !! "value")
         then Ret (onBadRequest "KEY or VALUE Not Found")
         else
           let key := default "" (body0 !! "key") in
           _ ← new_KVController (env_kv request env);
           _ ← updateItem key (Text (default "" (body0 !! "value"))) None;
           updatedValue ← getItem key [];
           Ret (onSuccessJson (JItem key updatedValue))
     end)
    (λ error, Ret (onError (message error))).

Definition excute_add (request : Request) (env : Env) : prog Response :=
  try_catch
    (match body request with
     | inl e => Throw e
     | inr body0 =>
         if falsy (body0 !! "key") || falsy (body0 !! "value")
         then Ret (onBadRequest "KEY or VALUE Not Found")
         else
           let key := default "" (body0 !! "key") in
           _ ← new_KVController (env_kv request env);
           _ ← addItem key (Text (default "" (body0 !! "value"))) None;
           updatedValue ← getItem key [];
           Ret (onSuccessJson (JItem key updatedValue))
     end)
    (λ error, Ret (onError (message error))).

(** The uploaded [File], as far as the handler reads it. *)
Record File : Type := mkFile {
  file_name : string;
  file_content : list byte
}.

(** [/api/upload].  [request.formData()], [checkFileSize] and
    [MAX_FILE_SIZE] are not among the sources: the form's file, the outcome
    of the size check and the text of its refusal are taken as given. *)
Definition excute_upload (file : File) (size_ok : bool) (too_large : string)
    (request : Request) (env : Env) : prog Response :=
  try_catch
    (if negb size_ok then Ret (onBadRequest too_large)
     else
       let fileName := file_name file in
       _ ← new_KVController (env_kv request env);
       _ ← updateItem fileName (Bytes (file_content file)) None;
       Ret (onSuccessJson
              (JUpload fileName
                 (origin request +:+ "/api/download?file=" +:+ fileName)
                 (origin request +:+ "/" +:+ default "null" (headers request !! "kv")
                    +:+ "/static/" +:+ fileName))))
    (λ error, Ret (onError (message error))).

Definition excute_download (request : Request) (env : Env) : prog Response :=
  try_catch
    (let fileName := searchParams request !! "file" in
     if falsy fileName then Ret (onBadRequest "File name is required")
     else
       _ ← new_KVController (env_kv request env);
       fileContent ← getItem (default "" fileName) ["arrayBuffer"];
       if is_null fileContent then Ret (onNotFound "File not found")
       else Ret (onSuccessStream fileContent "Download Success"))
    (λ error, Ret (onError (message error))).

(** A text between double quotes. *)
Definition quoted (s : string) : string :=
  let quote := String (Ascii.Ascii false true false false false true false false) "" in
  quote +:+ s +:+ quote.

Definition excute_verifyToken (request : Request) (env : Env) : prog Response :=
  try_catch
    (match body request with
     | inl e => Throw e
     | inr data =>
         if falsy (data !! "token")
         then Ret (onBadRequest
                     ("Token Not Found, It is likely { " +:+ quoted "token" +:+ ": "
                        +:+ quoted "Your_AUTH_TOKEN" +:+ " }"))
         else if negb (bool_decide (data !! "token" = Some (AUTH_TOKEN env)))
         then Ret (onUnauthorized "Unauthorized")
         else Ret (onSuccessJson (JString "AUTH_TOKEN is correct"))
     end)
    (λ error, Ret (onError (message error))).

Definition excute_delete (request : Request) (env : Env) : prog Response :=
  try_catch
    (match body request with
     | inl e => Throw e
     | inr body0 =>
         if falsy (body0 !! "key") then Ret (onBadRequest "KEY Not Found")
         else
           _ ← new_KVController (env_kv request env);
           _ ← deleteItem (default "" (body0 !! "key"));
           Ret (onSuccessJson JNone)
     end)
    (λ error, Ret (onError (message error))).

Definition excute_getList (request : Request) (env : Env) : prog Response :=
  try_catch
    (_ ← new_KVController (env_kv request env);
     list ← getAll;
     Ret (onSuccessJson (JRows list)))
    (λ error, Ret (onError (message error))).

Definition excute_getKvKeys (request : Request) (env : Env) : prog Response :=
  try_catch
    (_ ← new_KVController (env_kv request env);
     list ← getKeys;
     Ret (onSuccessJson (JKeys list)))
    (λ error, Ret (onError (message error))).

(** *** Entry guards *)

(** The [check] object handed to a guard.  [check.method] and
    [check.token] come from the router, which is not among the sources:
    they are taken as given, a test of the request's method and the outcome
    of the bearer-token test. *)
Record Check : Type := mkCheck {
  check_method : string → bool;
  check_token : bool;
  check_request : Request;
  check_env : Env
}.

(** What the methods of [CheckEnter] return. *)
Inductive Enter : Type :=
| rejectMethodEnter
| rejectTokenEnter
| rejectNotKVEnter
| acceptEnter.

Definition beforeEnter_verifyToken (check : Check) : Enter :=
  if negb (check_method check "POST") then rejectMethodEnter else acceptEnter.

Definition beforeEnter_getKvList (check : Check) : Enter :=
  if negb (check_method check "GET") then rejectMethodEnter
  else if negb (check_token check) then rejectTokenEnter
  else if falsy (KV_KEYS (check_env check)) then rejectNotKVEnter
  else acceptEnter.

Definition beforeEnter_get (check : Check) : Enter :=
  if negb (check_method check "GET") then rejectMethodEnter
  else if negb (check_token check) then rejectTokenEnter
  else if falsy (headers (check_request check) !! "kv") then rejectNotKVEnter
  else acceptEnter.

Definition beforeEnter_update (check : Check) : Enter :=
  if negb (check_method check "POST") then rejectMethodEnter
  else if negb (check_token check) then rejectTokenEnter
  else if falsy (headers (check_request check) !! "kv") then rejectNotKVEnter
  else acceptEnter.

Definition beforeEnter_add (check : Check) : Enter :=
  if negb (check_method check "POST") then rejectMethodEnter
  else if negb (check_token check) then rejectTokenEnter
  else if falsy (headers (check_request check) !! "kv") then rejectNotKVEnter
  else acceptEnter.

Definition beforeEnter_delete (check : Check) : Enter :=
  if negb (check_method check "POST") then rejectMethodEnter
  else if negb (check_token check) then rejectTokenEnter
  else if falsy (headers (check_request check) !! "kv") then rejectNotKVEnter
  else acceptEnter.

Definition beforeEnter_getList (check : Check) : Enter :=
  if negb (check_method check "GET") then rejectMethodEnter
  else if negb (check_token check) then rejectTokenEnter
  else if falsy (headers (check_request check) !! "kv") then rejectNotKVEnter
  else acceptEnter.

Definition beforeEnter_getKvKeys (check : Check) : Enter :=
  if negb (check_method check "GET") then rejectMethodEnter
  else if negb (check_token check) then rejectTokenEnter
  else if falsy (headers (check_request check) !! "kv") then rejectNotKVEnter
  else acceptEnter.

Definition beforeEnter_upload (check : Check) : Enter :=
  if negb (check_method check "POST") then rejectMethodEnter
  else if negb (check_token check) then rejectTokenEnter
  else if falsy (headers (check_request check) !! "kv") then rejectNotKVEnter
  else acceptEnter.

Definition beforeEnter_download (check : Check) : Enter :=
  if negb (check_method check "GET") then rejectMethodEnter
  else if negb (check_token check) then rejectTokenEnter
  else if falsy (headers (check_request check) !! "kv") then rejectNotKVEnter
  else acceptEnter.

(** A route, as far as entering it goes: its path and its guard, if any. *)
Record RouteConfig : Type := mkRoute {
  path : string;
  beforeEnter : option (Check → Enter)
}.

(** The default export of [route.ts], in its order. *)
Definition routes : list RouteConfig :=
  [ {| path := "/"; beforeEnter := None |};
    {| path := "/api/verifyToken"; beforeEnter := Some beforeEnter_verifyToken |};
    {| path := "/api/getKvList"; beforeEnter := Some beforeEnter_getKvList |};
    {| path := "/api/get"; beforeEnter := Some beforeEnter_get |};
    {| path := "/api/update"; beforeEnter := Some beforeEnter_update |};
    {| path := "/api/add"; beforeEnter := Some beforeEnter_add |};
    {| path := "/api/delete"; beforeEnter := Some beforeEnter_delete |};
    {| path := "/api/getList"; beforeEnter := Some beforeEnter_getList |};
    {| path := "/api/getKvKeys"; beforeEnter := Some beforeEnter_getKvKeys |};
    {| path := "/api/upload"; beforeEnter := Some beforeEnter_upload |};
    {| path := "/api/download"; beforeEnter := Some beforeEnter_download |} ].

(** The guard as the specification words it: method match, token match,
    presence of the 'kv' selector header, the first rejection winning. *)
Definition three_checks (method : string) (check : Check) : Enter :=
  if negb (check_method check method) then rejectMethodEnter
  else if negb (check_token check) then rejectTokenEnter
  else if falsy (headers (check_request check) !! "kv") then rejectNotKVEnter
  else acceptEnter.

(** The routes that work on a selected store. *)
Definition store_paths : list string :=
  [ "/api/get"; "/api/update"; "/api/add"; "/api/delete"; "/api/getList";
    "/api/getKvKeys"; "/api/upload"; "/api/download" ].

(** ** Vocabulary of the statements *)

(** The options [addItem] hands to [put]. *)
Definition addItem_options (options : option KVNamespacePutOptions)
    : KVNamespacePutOptions :=
  {| metadata := options ≫= metadata;
     expirationTtl := Some (nullish (options ≫= expirationTtl) 60);
     expiration := Some (nullish (options ≫= expiration) 60) |}.

(** The entries once an item has been put by [addItem]. *)
Definition put_item (m : gmap string entry) (item : Item) : gmap string entry :=
  <[item_key item := {| stored_value := item_value item;
                        stored_options := addItem_options (item_options item) |}]> m.

(** The body of the loop of [addItems]. *)
Definition addItems_body (item : Item) : prog unit :=
  addItem (item_key item) (item_value item) (item_options item).

(** The options [updateItem] hands to [put], given the metadata it read. *)
Definition updateItem_options (options : option KVNamespacePutOptions)
    (metadata0 : option jsObject) : KVNamespacePutOptions :=
  {| expiration := options ≫= expiration;
     expirationTtl := options ≫= expirationTtl;
     metadata := metadata0 |}.

(** The deletes [clear] starts for the keys it was given. *)
Definition clear_deletes (keys : list KVNamespaceListKey) : prog (list unit) :=
  Promise_all (map (λ key, await (kv_delete (key_name key)) : prog unit) keys).

(** The call after [i] others is not rejected. *)
Definition served_at (i : nat) (s : store) : Prop :=
  ∀ e, faults s !! i ≠ Some (Some e).

(** The calls of the controller, to speak of all of them at once. *)
Inductive operation : Type :=
| call_hasKey (key : string)
| call_addItem (key : string) (value : kvValue) (options : option KVNamespacePutOptions)
| call_addItems (items : list Item)
| call_updateItem (key : string) (value : kvValue) (options : option KVNamespacePutOptions)
| call_getItem (key : string) (options : list string)
| call_deleteItem (key : string)
| call_deleteItems (keys : list string)
| call_clear
| call_getAll
| call_getKeys.

(** What a run threw, if it threw, and the store it left. *)
Definition outcome {A : Type} (r : (JsError + A) * store) : option JsError * store :=
  (match fst r with
   | inl e => Some e
   | inr _ => None
   end, snd r).

Definition invoke (op : operation) (s : store) : option JsError * store :=
  match op with
  | call_hasKey key => outcome (run (hasKey key) s)
  | call_addItem key value options => outcome (run (addItem key value options) s)
  | call_addItems items => outcome (run (addItems items) s)
  | call_updateItem key value options => outcome (run (updateItem key value options) s)
  | call_getItem key options => outcome (run (getItem key options) s)
  | call_deleteItem key => outcome (run (deleteItem key) s)
  | call_deleteItems keys => outcome (run (deleteItems keys) s)
  | call_clear => outcome (run clear s)
  | call_getAll => outcome (run getAll s)
  | call_getKeys => outcome (run getKeys s)
  end.

(** The catch blocks between a call on the service and the caller of the
    operation: none in [hasKey], [getAll] and [getKeys]; the operation's own;
    and for the batches also that of the [addItem] or [deleteItem] they call. *)
Definition catches (op : operation) : nat :=
  match op with
  | call_hasKey _ | call_getAll | call_getKeys => 0
  | call_addItems _ | call_deleteItems _ => 2
  | _ => 1
  end.

(** What reaches the caller of an operation when the service rejects one of
    its calls with [e]: one [new Error(error)] per catch block on the way. *)
Definition rethrown (op : operation) (e : JsError) : JsError :=
  Nat.iter (catches op) new_Error e.

(** A schedule that serves [n] calls, rejects the next with [e] and goes on
    with [rest]. *)
Definition rejection_after (n : nat) (e : JsError) (rest : list (option JsError))
    : list (option JsError) :=
  replicate n None ++ Some e :: rest.

(** [p] hands a rejection of the service to its caller as [W e]: with the
    first scheduled rejection [e] after [n] served calls, a run of [p]
    either stops short of the rejected call, or throws [W e]. *)
Definition hands_on (W : JsError → JsError) {A : Type} (p : prog A) : Prop :=
  ∀ s n e rest,
    faults s = rejection_after n e rest →
    (∃ n', faults (snd (run p s)) = rejection_after n' e rest)
    ∨ ((length (faults (snd (run p s))) ≤ length rest)%nat
       ∧ fst (run p s) = inl (W e)).

(** The row [getAll] builds for a key of the store. *)
Definition row_of (s : store) (key : string) : Row :=
  let valueType :=
    nullish (stored_metadata s key ≫= (λ m : jsObject, m !! "valueType")) VALUE_TYPE_TEXT in
  {| row_key := key;
     row_value := if bool_decide (valueType = VALUE_TYPE_TEXT)
                  then stored_value <$> entries s !! key
                  else Some (Text not_viewable);
     row_valueType := valueType |}.

(** The calls that only read the store. *)
Definition is_read (c : kvCall) : bool :=
  match c with
  | kv_get _ _ | kv_getWithMetadata _ _ _ | kv_list => true
  | kv_put _ _ _ | kv_delete _ => false
  end.

(** The calls a run makes, in order. *)
Fixpoint trace {A : Type} (p : prog A) (s : store) : list kvCall :=
  match p with
  | Call c k => c :: trace (k (fst (perform c s))) (snd (perform c s))
  | _ => []
  end.

(** A program all of whose calls, on every path, only read. *)
Inductive read_only {A : Type} : prog A → Prop :=
| read_only_Ret (a : A) : read_only (Ret a)
| read_only_Throw (e : JsError) : read_only (Throw e)
| read_only_Call (c : kvCall) (k : JsError + answer c → prog A) :
    is_read c = true → (∀ r, read_only (k r)) → read_only (Call c k).

(** A run that resolved, to anything. *)
Definition resolves {A : Type} (r : (JsError + A) * store) : Prop :=
  ∃ a, fst r = inr a.

(** * Properties *)

(** ** Running a program *)

Lemma run_bind {A B : Type} (p : prog A) (f : A → prog B) (s : store) :
  run (p ≫= f) s =
  match fst (run p s) with
  | inl e => (inl e, snd (run p s))
  | inr a => run (f a) (snd (run p s))
  end.
Proof.
  revert s. induction p as [a|e|c k IH]; intros s; try reflexivity.
  change (run (Call c k ≫= f) s)
    with (run (k (fst (perform c s)) ≫= f) (snd (perform c s))).
  apply IH.
Qed.

Lemma run_try_catch {A : Type} (p : prog A) (h : JsError → prog A) (s : store) :
  run (try_catch p h) s =
  match fst (run p s) with
  | inl e => run (h e) (snd (run p s))
  | inr a => (inr a, snd (run p s))
  end.
Proof.
  revert s. induction p as [a|e|c k IH]; intros s; try reflexivity.
  simpl. apply IH.
Qed.

Lemma run_await (c : kvCall) (s : store) : run (await c) s = perform c s.
Proof.
  unfold await. simpl. destruct (perform c s) as [[e|a] s']; reflexivity.
Qed.

Lemma run_rethrow {A : Type} (p : prog A) (s : store) :
  run (try_catch p (λ error, Throw (new_Error error))) s =
  match fst (run p s) with
  | inl e => (inl (new_Error e), snd (run p s))
  | inr a => (inr a, snd (run p s))
  end.
Proof. rewrite run_try_catch. destruct (fst (run p s)); reflexivity. Qed.

Lemma run_settle {A : Type} (p : prog A) (s : store) :
  run (settle p) s = (inr (fst (run p s)), snd (run p s)).
Proof.
  unfold settle. rewrite run_try_catch, run_bind.
  destruct (fst (run p s)); reflexivity.
Qed.

Lemma run_for_await_cons {X : Type} (x : X) (xs : list X) (body : X → prog unit)
    (s : store) :
  run (for_await (x :: xs) body) s =
  match fst (run (body x) s) with
  | inl e => (inl e, snd (run (body x) s))
  | inr _ => run (for_await xs body) (snd (run (body x) s))
  end.
Proof. simpl for_await. apply run_bind. Qed.

Lemma run_for_await_app {X : Type} (xs ys : list X) (body : X → prog unit)
    (s : store) :
  run (for_await (xs ++ ys) body) s =
  match fst (run (for_await xs body) s) with
  | inl e => (inl e, snd (run (for_await xs body) s))
  | inr _ => run (for_await ys body) (snd (run (for_await xs body) s))
  end.
Proof.
  revert s. induction xs as [|x xs IH]; intros s.
  - reflexivity.
  - rewrite <- app_comm_cons, !run_for_await_cons.
    destruct (fst (run (body x) s)); [reflexivity | apply IH].
Qed.

(** ** The service *)

Lemma perform_served (c : kvCall) (s : store) :
  next_fault s = None →
  perform c s = (inr (fst (serve c s)), received s c (snd (serve c s))).
Proof. intros H. unfold perform. rewrite H. reflexivity. Qed.

Lemma perform_rejected (c : kvCall) (s : store) (e : JsError) :
  next_fault s = Some e →
  perform c s = (inl e, received s c (entries s)).
Proof. intros H. unfold perform. rewrite H. reflexivity. Qed.

Lemma perform_faults (c : kvCall) (s : store) :
  faults (snd (perform c s)) = tail (faults s).
Proof. unfold perform. destruct (next_fault s); reflexivity. Qed.

Lemma perform_log (c : kvCall) (s : store) :
  log (snd (perform c s)) = log s ++ [c].
Proof. unfold perform. destruct (next_fault s); reflexivity. Qed.

Lemma perform_list_limit (c : kvCall) (s : store) :
  list_limit (snd (perform c s)) = list_limit s.
Proof. unfold perform. destruct (next_fault s); reflexivity. Qed.

Lemma serves_next (n : nat) (s : store) : serves (S n) s → next_fault s = None.
Proof.
  unfold serves, next_fault. destruct (faults s) as [|[e|] fs]; try reflexivity.
  simpl. intros H. inversion H. discriminate.
Qed.

Lemma serves_received (n : nat) (s : store) (c : kvCall) (m : gmap string entry) :
  serves (S n) s → serves n (received s c m).
Proof.
  unfold serves. simpl. destruct (faults s) as [|f fs]; simpl.
  - intros _. rewrite take_nil. constructor.
  - intros H. inversion H. assumption.
Qed.

Lemma key_names (keys : list string) : map key_name (map mkListKey keys) = keys.
Proof. induction keys as [|k ks IH]; simpl; [reflexivity | by rewrite IH]. Qed.

(** ** What each method does to a store *)

Lemma run_getKeys (s : store) :
  run getKeys s =
  match next_fault s with
  | Some e => (inl e, received s kv_list (entries s))
  | None => (inr (listed s), received s kv_list (entries s))
  end.
Proof.
  unfold getKeys. rewrite run_bind, (run_await kv_list). unfold perform.
  destruct (next_fault s); simpl; [reflexivity | by rewrite key_names].
Qed.

Lemma run_hasKey (key : string) (s : store) :
  run (hasKey key) s =
  match next_fault s with
  | Some e => (inl e, received s kv_list (entries s))
  | None => (inr (includes (listed s) key), received s kv_list (entries s))
  end.
Proof.
  unfold hasKey. rewrite run_bind, run_getKeys.
  destruct (next_fault s); reflexivity.
Qed.

Lemma run_addItem (key : string) (value : kvValue)
    (options : option KVNamespacePutOptions) (s : store) :
  run (addItem key value options) s =
  let s1 := received s kv_list (entries s) in
  let put := kv_put key value (addItem_options options) in
  match next_fault s with
  | Some e => (inl (new_Error e), s1)
  | None =>
      if includes (listed s) key
      then (inl (new_Error (Error ("Key " +:+ key +:+ " already exists"))), s1)
      else match next_fault s1 with
           | Some e => (inl (new_Error e), received s1 put (entries s))
           | None => (inr tt, received s1 put (put_item (entries s) (mkItem key value options)))
           end
  end.
Proof.
  unfold addItem. rewrite run_rethrow, run_bind, run_hasKey.
  destruct (next_fault s) as [e|]; [reflexivity|]. cbn [fst snd].
  destruct (includes (listed s) key); [reflexivity|].
  fold (addItem_options options).
  rewrite (run_await (kv_put key value (addItem_options options))). unfold perform.
  destruct (next_fault _); reflexivity.
Qed.

Lemma run_updateItem (key : string) (value : kvValue)
    (options : option KVNamespacePutOptions) (s : store) :
  run (updateItem key value options) s =
  let s1 := received s (kv_getWithMetadata key options 60) (entries s) in
  let put_options := updateItem_options options (stored_metadata s key) in
  let put := kv_put key value put_options in
  match next_fault s with
  | Some e => (inl (new_Error e), s1)
  | None =>
      match next_fault s1 with
      | Some e => (inl (new_Error e), received s1 put (entries s))
      | None =>
          (inr tt,
           received s1 put
             (<[key := {| stored_value := value; stored_options := put_options |}]>
                (entries s)))
      end
  end.
Proof.
  unfold updateItem. rewrite run_rethrow, run_bind.
  rewrite (run_await (kv_getWithMetadata key options 60)).
  destruct (next_fault s) as [e|] eqn:Hs;
    [by rewrite (perform_rejected _ _ _ Hs) | rewrite (perform_served _ _ Hs)].
  cbn [fst snd serve].
  fold (updateItem_options options (stored_metadata s key)).
  rewrite (run_await (kv_put key value _)). unfold perform.
  destruct (next_fault (received s _ _)); reflexivity.
Qed.

Lemma run_getItem (key : string) (options : list string) (s : store) :
  run (getItem key options) s =
  let s1 := received s (kv_get key options) (entries s) in
  let s2 := received s1 (kv_getWithMetadata key None 60) (entries s) in
  match next_fault s with
  | Some e => (inl (new_Error e), s1)
  | None =>
      match next_fault s1 with
      | Some e => (inl (new_Error e), s2)
      | None =>
          match stored_metadata s key with
          | None => (inl (new_Error (TypeError (null_property_message "valueType"))), s2)
          | Some m =>
              (inr (Some {| result_value := stored_value <$> entries s !! key;
                            result_valueType := m !! "valueType" |}), s2)
          end
      end
  end.
Proof.
  unfold getItem. rewrite run_rethrow, run_bind.
  rewrite (run_await (kv_get key options)).
  destruct (next_fault s) as [e|] eqn:Hs;
    [by rewrite (perform_rejected _ _ _ Hs) | rewrite (perform_served _ _ Hs)].
  cbn [fst snd serve].
  rewrite run_bind, (run_await (kv_getWithMetadata key None 60)).
  destruct (next_fault (received s _ _)) as [e|] eqn:Hs1;
    [by rewrite (perform_rejected _ _ _ Hs1) | rewrite (perform_served _ _ Hs1)].
  cbn [fst snd serve].
  change (stored_metadata (received s (kv_get key options) (entries s)) key)
    with (stored_metadata s key).
  rewrite run_bind.
  destruct (stored_metadata s key) as [m|]; reflexivity.
Qed.

Lemma run_deleteItem (key : string) (s : store) :
  run (deleteItem key) s =
  match next_fault s with
  | Some e => (inl (new_Error e), received s (kv_delete key) (entries s))
  | None => (inr tt, received s (kv_delete key) (delete key (entries s)))
  end.
Proof.
  unfold deleteItem. rewrite run_rethrow, (run_await (kv_delete key)).
  unfold perform. destruct (next_fault s); reflexivity.
Qed.

(** ** Adding an item *)

Lemma message_new_Error_Error (msg : string) :
  msg ≠ "" → message (new_Error (Error msg)) = "Error: " +:+ msg.
Proof.
  intros Hmsg. unfold new_Error, toString. simpl.
  destruct (decide (msg = "")); [contradiction | reflexivity].
Qed.

Lemma includes_spec (keys : list string) (key : string) :
  includes keys key = true ↔ key ∈ keys.
Proof. unfold includes. apply bool_decide_eq_true. Qed.

(** Two [addItem] for the same absent key whose awaits alternate: both
    list before either puts, so both puts go through. *)
Lemma addItem_race (key : string) (value value' : kvValue)
    (options options' : option KVNamespacePutOptions) (s : store) :
  faults s = [] →
  key ∉ listed s →
  interleave [true; false; true; false]
    (addItem key value options) (addItem key value' options') s
  = (Ret tt, Ret tt,
     {| entries := put_item (put_item (entries s) (mkItem key value options))
                     (mkItem key value' options');
        list_limit := list_limit s;
        faults := [];
        log := log s ++ [kv_list; kv_list;
                         kv_put key value (addItem_options options);
                         kv_put key value' (addItem_options options')] |}).
Proof.
  intros Hfaults Hkey. destruct s as [m limit fs calls]. simpl in Hfaults. subst fs.
  assert (Hno : includes (listed {| entries := m; list_limit := limit;
                                    faults := []; log := calls |}) key = false).
  { apply not_true_is_false. by rewrite includes_spec. }
  unfold listed in Hno. simpl in Hno.
  cbn. unfold listed. cbn. rewrite !key_names, !Hno. cbn.
  unfold received. cbn [entries list_limit faults log tail].
  rewrite <- !app_assoc. reflexivity.
Qed.

(** C1.  [addItem] lists the keys and then puts.  With the list call served:
    a key among the listed keys makes it throw 'Key <key> already exists'
    (re-thrown by its catch block, which turns the message into
    'Error: Key <key> already exists') after the list call alone, the entries
    untouched; a key that is not listed makes it issue the put, which writes
    the entry when served.  The put is issued exactly when the key was not
    listed.  The check and the write are two separate calls and the write is
    unconditional: two [addItem] for one absent key whose calls alternate
    both succeed, the later put replacing the earlier. *)
Theorem addItem_checks_then_puts (key : string) (value : kvValue)
    (options : option KVNamespacePutOptions) (s : store) :
  next_fault s = None →
  let put := kv_put key value (addItem_options options) in
  let s1 := received s kv_list (entries s) in
  (key ∈ listed s →
     run (addItem key value options) s
     = (inl (new_Error (Error ("Key " +:+ key +:+ " already exists"))), s1)
     ∧ message (new_Error (Error ("Key " +:+ key +:+ " already exists")))
       = "Error: Key " +:+ key +:+ " already exists")
  ∧ (key ∉ listed s →
     log (snd (run (addItem key value options) s)) = log s ++ [kv_list; put]
     ∧ (next_fault s1 = None →
        run (addItem key value options) s
        = (inr tt, received s1 put (put_item (entries s) (mkItem key value options)))))
  ∧ (put ∈ drop (length (log s)) (log (snd (run (addItem key value options) s)))
     ↔ key ∉ listed s)
  ∧ (∀ value' options',
       faults s = [] → key ∉ listed s →
       interleave [true; false; true; false]
         (addItem key value options) (addItem key value' options') s
       = (Ret tt, Ret tt,
          {| entries := put_item (put_item (entries s) (mkItem key value options))
                          (mkItem key value' options');
             list_limit := list_limit s;
             faults := [];
             log := log s ++ [kv_list; kv_list; put;
                              kv_put key value' (addItem_options options')] |})).
Proof.
  intros Hlist. cbv zeta. rewrite run_addItem, Hlist. cbv zeta.
  set (put := kv_put key value (addItem_options options)).
  set (s1 := received s kv_list (entries s)).
  split; [|split; [|split]].
  - intros Hin. apply includes_spec in Hin. rewrite Hin. split; [reflexivity|].
    apply message_new_Error_Error. discriminate.
  - intros Hout. rewrite <- includes_spec in Hout. apply not_true_is_false in Hout.
    rewrite Hout. split.
    + destruct (next_fault s1); simpl; by rewrite <- app_assoc.
    + intros Hput. by rewrite Hput.
  - destruct (includes (listed s) key) eqn:Hinc.
    + simpl. rewrite drop_app_length. split.
      * intros Hput. apply list_elem_of_singleton in Hput. discriminate.
      * intros Hout. apply includes_spec in Hinc. contradiction.
    + assert (Hlog : ∀ m, drop (length (log s)) (log (received s1 put m))
                          = [kv_list; put]).
      { intros m. simpl. rewrite <- app_assoc. apply drop_app_length. }
      split.
      * intros _ Hin. apply includes_spec in Hin. congruence.
      * intros _. destruct (next_fault s1); simpl snd; rewrite Hlog; set_solver.
  - intros value' options'. apply addItem_race.
Qed.

Lemma addItem_checks_then_puts_witness :
  let s := quiet {[ "a" := mkEntry (Text "y") (mkPutOptions None None None) ]} in
  next_fault s = None
  ∧ "a" ∈ listed s
  ∧ fst (run (addItem "a" (Text "x") None) s)
    = inl (Error "Error: Key a already exists").
Proof.
  intros s. split; [reflexivity|].
  assert (Hin : "a" ∈ listed s) by (apply (bool_decide_unpack _); vm_compute; exact I).
  split; [exact Hin|].
  destruct (addItem_checks_then_puts "a" (Text "x") None s eq_refl) as [Hdup _].
  destruct (Hdup Hin) as [Hrun _]. rewrite Hrun. reflexivity.
Defined.

Lemma serves_two (s : store) (c : kvCall) (m : gmap string entry) :
  serves 2 s → next_fault s = None ∧ next_fault (received s c m) = None.
Proof.
  intros H. split.
  - by apply (serves_next 1).
  - apply (serves_next 0). by apply serves_received.
Qed.

(** ** Updating an item *)

(** C6.  [updateItem] passes the metadata it finds through: with its two
    calls served, on a key that has metadata [m] attached, it succeeds and
    leaves the new value under the key with the metadata still [m], whatever
    options (and metadata in them) the caller passed. *)
Theorem updateItem_keeps_metadata (key : string) (value : kvValue)
    (options : option KVNamespacePutOptions) (s : store) (m : jsObject) :
  serves 2 s →
  stored_metadata s key = Some m →
  fst (run (updateItem key value options) s) = inr tt
  ∧ stored_value <$> entries (snd (run (updateItem key value options) s)) !! key
    = Some value
  ∧ stored_metadata (snd (run (updateItem key value options) s)) key = Some m.
Proof.
  intros Hserved Hm. rewrite run_updateItem. cbv zeta.
  destruct (serves_two s (kv_getWithMetadata key options 60) (entries s) Hserved)
    as [-> ->].
  cbn [fst snd]. rewrite Hm. split; [reflexivity|].
  unfold stored_metadata. cbn [received entries].
  rewrite lookup_insert_eq. split; reflexivity.
Qed.

Lemma updateItem_keeps_metadata_witness :
  let tagged := mkEntry (Text "old") (mkPutOptions None None (Some {[ "valueType" := "STREAM" ]})) in
  let s := quiet {[ "a" := tagged ]} in
  stored_metadata (snd (run (updateItem "a" (Text "new") None) s)) "a"
  = Some {[ "valueType" := "STREAM" ]}.
Proof.
  intros tagged s.
  assert (Hserved : serves 2 s) by (vm_compute; constructor).
  assert (Hm : stored_metadata s "a" = Some {[ "valueType" := "STREAM" ]})
    by (vm_compute; reflexivity).
  exact (proj2 (proj2 (updateItem_keeps_metadata "a" (Text "new") None s _ Hserved Hm))).
Defined.

(** ** Empty batches *)

(** C10.  [addItems] and [deleteItems] refuse an empty array: they throw
    'No items to add' and 'No keys to delete' (re-thrown by the catch block,
    the messages reading 'Error: No items to add' and 'Error: No keys to
    delete'), make no call and leave the store as it was. *)
Theorem empty_batches_rejected (s : store) :
  run (addItems []) s = (inl (new_Error (Error "No items to add")), s)
  ∧ message (new_Error (Error "No items to add")) = "Error: No items to add"
  ∧ run (deleteItems []) s = (inl (new_Error (Error "No keys to delete")), s)
  ∧ message (new_Error (Error "No keys to delete")) = "Error: No keys to delete".
Proof. repeat split. Qed.

(** ** The handlers that write *)

Lemma getItem_entries (key : string) (options : list string) (s : store) :
  entries (snd (run (getItem key options) s)) = entries s.
Proof.
  rewrite run_getItem. cbv zeta.
  destruct (next_fault s); [reflexivity|].
  destruct (next_fault (received s _ _)); [reflexivity|].
  destruct (stored_metadata s key); reflexivity.
Qed.

Lemma falsy_Some (x : string) : x ≠ "" → falsy (Some x) = false.
Proof. intros H. unfold falsy. by apply bool_decide_eq_false. Qed.

Lemma excute_add_entries (request : Request) (env : Env) (s : store)
    (b : jsObject) (key v : string) :
  body request = inr b →
  b !! "key" = Some key → key ≠ "" →
  b !! "value" = Some v → v ≠ "" →
  env_kv request env = true →
  entries (snd (run (excute_add request env) s))
  = entries (snd (run (addItem key (Text v) None) s)).
Proof.
  intros Hbody Hkey Hk Hvalue Hv Hkv. unfold excute_add.
  rewrite Hbody, Hkey, Hvalue, !falsy_Some, Hkv by assumption.
  cbn [orb negb new_KVController default from_option id]. rewrite run_try_catch.
  change (Ret () ≫= ?f) with (f tt). cbv beta. rewrite run_bind.
  destruct (fst (run (addItem key (Text v) None) s)); [reflexivity|].
  rewrite run_bind.
  destruct (fst (run (getItem key []) _)) eqn:Hget; cbn [fst snd run];
    apply getItem_entries.
Qed.

Lemma excute_update_entries (request : Request) (env : Env) (s : store)
    (b : jsObject) (key v : string) :
  body request = inr b →
  b !! "key" = Some key → key ≠ "" →
  b !! "value" = Some v → v ≠ "" →
  env_kv request env = true →
  entries (snd (run (excute_update request env) s))
  = entries (snd (run (updateItem key (Text v) None) s)).
Proof.
  intros Hbody Hkey Hk Hvalue Hv Hkv. unfold excute_update.
  rewrite Hbody, Hkey, Hvalue, !falsy_Some, Hkv by assumption.
  cbn [orb negb new_KVController default from_option id]. rewrite run_try_catch.
  change (Ret () ≫= ?f) with (f tt). cbv beta. rewrite run_bind.
  destruct (fst (run (updateItem key (Text v) None) s)); [reflexivity|].
  rewrite run_bind.
  destruct (fst (run (getItem key []) _)) eqn:Hget; cbn [fst snd run];
    apply getItem_entries.
Qed.

Lemma excute_upload_entries (file : File) (too_large : string)
    (request : Request) (env : Env) (s : store) :
  env_kv request env = true →
  entries (snd (run (excute_upload file true too_large request env) s))
  = entries (snd (run (updateItem (file_name file) (Bytes (file_content file)) None) s)).
Proof.
  intros Hkv. unfold excute_upload. rewrite Hkv.
  cbn [negb new_KVController]. rewrite run_try_catch.
  change (Ret () ≫= ?f) with (f tt). cbv beta. rewrite run_bind.
  destruct (fst (run (updateItem _ _ None) s)); reflexivity.
Qed.

Lemma addItem_served (key : string) (value : kvValue)
    (options : option KVNamespacePutOptions) (s : store) :
  serves 2 s → key ∉ listed s →
  run (addItem key value options) s
  = (inr tt,
     received (received s kv_list (entries s))
       (kv_put key value (addItem_options options))
       (put_item (entries s) (mkItem key value options))).
Proof.
  intros Hserved Hkey. rewrite run_addItem. cbv zeta.
  destruct (serves_two s kv_list (entries s) Hserved) as [-> ->].
  rewrite <- includes_spec in Hkey. apply not_true_is_false in Hkey.
  by rewrite Hkey.
Qed.

Lemma updateItem_served (key : string) (value : kvValue)
    (options : option KVNamespacePutOptions) (s : store) :
  serves 2 s →
  run (updateItem key value options) s
  = (inr tt,
     received (received s (kv_getWithMetadata key options 60) (entries s))
       (kv_put key value (updateItem_options options (stored_metadata s key)))
       (<[key := {| stored_value := value;
                    stored_options :=
                      updateItem_options options (stored_metadata s key) |}]>
          (entries s))).
Proof.
  intros Hserved. rewrite run_updateItem. cbv zeta.
  by destruct (serves_two s (kv_getWithMetadata key options 60) (entries s) Hserved)
    as [-> ->].
Qed.

(** C9.  An [addItem] whose caller passes no expiration options writes the
    entry with [expirationTtl] 60 and [expiration] 60: these are the options
    of the put it issues and of the entry the store then holds.  [/api/add]
    calls [addItem] without options, so its entries carry them.
    [updateItem] sets no default: the entry it writes has the caller's
    expiration options, none when none are passed, as with [/api/update] and
    [/api/upload]. *)
Theorem addItem_defaults_expiration (key : string) (value : kvValue)
    (options : option KVNamespacePutOptions) (s : store) :
  serves 2 s →
  key ∉ listed s →
  options ≫= expirationTtl = None →
  options ≫= expiration = None →
  (log (snd (run (addItem key value options) s))
   = log s ++ [kv_list;
               kv_put key value {| expiration := Some 60; expirationTtl := Some 60;
                                   metadata := options ≫= metadata |}]
   ∧ entries (snd (run (addItem key value options) s)) !! key
     = Some {| stored_value := value;
               stored_options := {| expiration := Some 60; expirationTtl := Some 60;
                                    metadata := options ≫= metadata |} |})
  ∧ entries (snd (run (updateItem key value options) s)) !! key
    = Some {| stored_value := value;
              stored_options := {| expiration := None; expirationTtl := None;
                                   metadata := stored_metadata s key |} |}
  ∧ (∀ request env b v,
       body request = inr b → b !! "key" = Some key → key ≠ "" →
       b !! "value" = Some v → v ≠ "" → env_kv request env = true →
       entries (snd (run (excute_add request env) s)) !! key
       = Some {| stored_value := Text v;
                 stored_options := {| expiration := Some 60; expirationTtl := Some 60;
                                      metadata := None |} |}
       ∧ entries (snd (run (excute_update request env) s)) !! key
         = Some {| stored_value := Text v;
                   stored_options := {| expiration := None; expirationTtl := None;
                                        metadata := stored_metadata s key |} |})
  ∧ (∀ request env file too_large,
       file_name file = key → env_kv request env = true →
       entries (snd (run (excute_upload file true too_large request env) s)) !! key
       = Some {| stored_value := Bytes (file_content file);
                 stored_options := {| expiration := None; expirationTtl := None;
                                      metadata := stored_metadata s key |} |}).
Proof.
  intros Hserved Hkey Httl Hexp.
  split; [|split; [|split]].
  - rewrite addItem_served by assumption. unfold put_item.
    cbn [snd received log entries item_key item_value item_options].
    rewrite lookup_insert_eq, <- app_assoc. unfold addItem_options.
    rewrite Httl, Hexp. split; reflexivity.
  - rewrite updateItem_served by assumption. unfold updateItem_options.
    rewrite Httl, Hexp. cbn [snd received entries]. by rewrite lookup_insert_eq.
  - intros request env b v Hbody Hk Hkne Hv Hvne Hkv. split.
    + rewrite (excute_add_entries request env s b key v) by assumption.
      rewrite addItem_served by assumption.
      cbn [snd received entries]. unfold put_item. by rewrite lookup_insert_eq.
    + rewrite (excute_update_entries request env s b key v) by assumption.
      rewrite updateItem_served by assumption.
      cbn [snd received entries]. by rewrite lookup_insert_eq.
  - intros request env file too_large Hname Hkv.
    rewrite excute_upload_entries by assumption.
    rewrite updateItem_served by assumption. rewrite Hname.
    cbn [snd received entries]. by rewrite lookup_insert_eq.
Qed.

Lemma addItem_defaults_expiration_witness :
  entries (snd (run (addItem "a" (Text "x") None) (quiet ∅))) !! "a"
  = Some {| stored_value := Text "x";
            stored_options := {| expiration := Some 60; expirationTtl := Some 60;
                                 metadata := None |} |}.
Proof.
  assert (Hserved : serves 2 (quiet ∅)) by (vm_compute; constructor).
  assert (Hkey : "a" ∉ listed (quiet ∅)) by (vm_compute; apply not_elem_of_nil).
  exact (proj2 (proj1 (addItem_defaults_expiration "a" (Text "x") None (quiet ∅)
                         Hserved Hkey eq_refl eq_refl))).
Defined.

(** ** Reading an item *)

Lemma getItem_result (key : string) (options : list string) (s : store)
    (r : option ItemResult) :
  fst (run (getItem key options) s) = inr r →
  ∃ m, stored_metadata s key = Some m
       ∧ r = Some {| result_value := stored_value <$> entries s !! key;
                     result_valueType := m !! "valueType" |}.
Proof.
  rewrite run_getItem. cbv zeta.
  destruct (next_fault s); [discriminate|].
  destruct (next_fault (received s _ _)); [discriminate|].
  destruct (stored_metadata s key) as [m|]; [|discriminate].
  simpl. intros [= <-]. by exists m.
Qed.

Lemma stored_metadata_missing (s : store) (key : string) :
  entries s !! key = None → stored_metadata s key = None.
Proof. intros H. unfold stored_metadata. by rewrite H. Qed.

Lemma getItem_no_metadata (key : string) (options : list string) (s : store) :
  stored_metadata s key = None →
  ∃ e, fst (run (getItem key options) s) = inl (new_Error e)
       ∧ (serves 2 s → e = TypeError (null_property_message "valueType")).
Proof.
  intros Hm. rewrite run_getItem. cbv zeta. rewrite Hm.
  destruct (next_fault s) as [e|] eqn:Hs.
  { exists e. split; [reflexivity|]. intros Hserved.
    apply (serves_next 1) in Hserved. congruence. }
  destruct (next_fault (received s _ _)) as [e|] eqn:Hs1.
  { exists e. split; [reflexivity|]. intros Hserved.
    apply (serves_two s (kv_get key options) (entries s)) in Hserved as [_ Hserved].
    congruence. }
  eexists. split; reflexivity.
Qed.

Lemma excute_get_response (request : Request) (env : Env) (s : store) :
  fst (run (excute_get request env) s) =
  let key := searchParams request !! "key" in
  if falsy key then inr (onBadRequest "KEY Not Found")
  else if negb (env_kv request env) then inr (onError "KV Namespace not found")
  else match fst (run (getItem (default "" key) []) s) with
       | inl e => inr (onError (message e))
       | inr None => inr (onNotFound "Not Found")
       | inr (Some item) => inr (onSuccessJson (JItem (default "" key) (Some item)))
       end.
Proof.
  unfold excute_get. cbv zeta. rewrite run_try_catch.
  destruct (falsy (searchParams request !! "key")); [reflexivity|].
  rewrite run_bind. unfold new_KVController.
  destruct (env_kv request env); cbn [negb run fst snd]; [|reflexivity].
  rewrite run_bind.
  destruct (fst (run (getItem _ []) s)) as [e|[item|]]; reflexivity.
Qed.

Lemma excute_download_response (request : Request) (env : Env) (s : store) :
  fst (run (excute_download request env) s) =
  let fileName := searchParams request !! "file" in
  if falsy fileName then inr (onBadRequest "File name is required")
  else if negb (env_kv request env) then inr (onError "KV Namespace not found")
  else match fst (run (getItem (default "" fileName) ["arrayBuffer"]) s) with
       | inl e => inr (onError (message e))
       | inr None => inr (onNotFound "File not found")
       | inr (Some item) => inr (onSuccessStream (Some item) "Download Success")
       end.
Proof.
  unfold excute_download. cbv zeta. rewrite run_try_catch.
  destruct (falsy (searchParams request !! "file")); [reflexivity|].
  rewrite run_bind. unfold new_KVController.
  destruct (env_kv request env); cbn [negb run fst snd]; [|reflexivity].
  rewrite run_bind.
  destruct (fst (run (getItem _ ["arrayBuffer"]) s)) as [e|[item|]]; reflexivity.
Qed.

(** C8.  [getItem] never resolves to null: what it resolves to is an object
    [{ value, valueType }], and it does so only for a key that has metadata.
    For a key the store does not hold it throws (a [TypeError] on the null
    metadata, re-thrown, when both its calls are served).  So the handlers
    of [/api/get] and [/api/download] never answer with their 'Not Found'
    response, and a request for a missing key is answered by [onError],
    status 500. *)
Theorem getItem_never_null (request : Request) (env : Env) (s : store) :
  (∀ key options r, fst (run (getItem key options) s) = inr r → r ≠ None)
  ∧ (∀ key options,
       entries s !! key = None →
       ∃ e, fst (run (getItem key options) s) = inl (new_Error e)
            ∧ (serves 2 s → e = TypeError (null_property_message "valueType")))
  ∧ (∀ msg, fst (run (excute_get request env) s) ≠ inr (onNotFound msg))
  ∧ (∀ msg, fst (run (excute_download request env) s) ≠ inr (onNotFound msg))
  ∧ (∀ key,
       searchParams request !! "key" = Some key → key ≠ "" →
       entries s !! key = None →
       ∃ msg, fst (run (excute_get request env) s) = inr (onError msg)
              ∧ status (onError msg) = 500)
  ∧ (∀ fileName,
       searchParams request !! "file" = Some fileName → fileName ≠ "" →
       entries s !! fileName = None →
       ∃ msg, fst (run (excute_download request env) s) = inr (onError msg)
              ∧ status (onError msg) = 500).
Proof.
  split; [|split; [|split; [|split; [|split]]]].
  - intros key options r Hr. apply getItem_result in Hr as (m & _ & ->). discriminate.
  - intros key options Hmissing.
    apply getItem_no_metadata. by apply stored_metadata_missing.
  - intros msg. rewrite excute_get_response. cbv zeta.
    destruct (falsy _); [discriminate|].
    destruct (negb _); [discriminate|].
    destruct (fst (run (getItem _ []) s)) as [e|[item|]] eqn:Hget; try discriminate.
    apply getItem_result in Hget as (m & _ & Hnone). discriminate.
  - intros msg. rewrite excute_download_response. cbv zeta.
    destruct (falsy _); [discriminate|].
    destruct (negb _); [discriminate|].
    destruct (fst (run (getItem _ ["arrayBuffer"]) s)) as [e|[item|]] eqn:Hget;
      try discriminate.
    apply getItem_result in Hget as (m & _ & Hnone). discriminate.
  - intros key Hkey Hne Hmissing. rewrite excute_get_response. cbv zeta.
    rewrite Hkey, falsy_Some by assumption. cbn [default from_option id].
    destruct (negb _); [by eexists|].
    destruct (getItem_no_metadata key [] s (stored_metadata_missing s key Hmissing))
      as (e & -> & _).
    by eexists.
  - intros fileName Hfile Hne Hmissing. rewrite excute_download_response. cbv zeta.
    rewrite Hfile, falsy_Some by assumption. cbn [default from_option id].
    destruct (negb _); [by eexists|].
    destruct (getItem_no_metadata fileName ["arrayBuffer"] s
                (stored_metadata_missing s fileName Hmissing)) as (e & -> & _).
    by eexists.
Qed.

Lemma getItem_never_null_witness :
  let request := {| origin := "https://kv.example"; searchParams := {[ "key" := "gone" ]};
                    headers := {[ "kv" := "KV" ]}; body := inr ∅ |} in
  let env := {| AUTH_TOKEN := "secret"; KV_KEYS := Some "KV";
                kv_bound := λ name, bool_decide (name = "KV") |} in
  ∃ msg, fst (run (excute_get request env) (quiet ∅)) = inr (onError msg)
         ∧ status (onError msg) = 500.
Proof.
  intros request env.
  destruct (getItem_never_null request env (quiet ∅)) as (_ & _ & _ & _ & Hget & _).
  apply (Hget "gone"); [reflexivity | discriminate | reflexivity].
Defined.

(** The response to a request for a missing key, in full. *)
Example excute_get_missing_key :
  fst (run (excute_get
              {| origin := "https://kv.example"; searchParams := {[ "key" := "gone" ]};
                 headers := {[ "kv" := "KV" ]}; body := inr ∅ |}
              {| AUTH_TOKEN := "secret"; KV_KEYS := Some "KV";
                 kv_bound := λ name, bool_decide (name = "KV") |})
         (quiet ∅))
  = inr (onError "TypeError: Cannot read properties of null (reading 'valueType')").
Proof. vm_compute. reflexivity. Qed.

(** ** The value-type tag *)

Lemma run_getAll_loop (keys : list string) (result : list Row) (s : store) :
  serves (length keys) s →
  fst (run (getAll_loop (map mkListKey keys) result) s)
  = inr (result ++ map (row_of s) keys).
Proof.
  revert result s. induction keys as [|key keys IH]; intros result s Hserved.
  - simpl. by rewrite app_nil_r.
  - cbn [map getAll_loop]. rewrite run_bind.
    rewrite (run_await (kv_getWithMetadata key None 60)).
    rewrite (perform_served _ s (serves_next _ s Hserved)).
    cbn [fst snd serve key_name].
    rewrite IH by (by apply serves_received).
    rewrite <- app_assoc. reflexivity.
Qed.

Lemma run_getAll (s : store) :
  serves (S (length (listed s))) s →
  fst (run getAll s) = inr (map (row_of s) (listed s)).
Proof.
  intros Hserved. unfold getAll. rewrite run_bind, (run_await kv_list).
  rewrite (perform_served _ s (serves_next _ s Hserved)).
  cbn [fst snd serve]. rewrite run_getAll_loop by (by apply serves_received).
  reflexivity.
Qed.

(** C2, as stated, fails: a key added by [addItem] without options has no
    metadata at all, so no 'TEXT' or 'STREAM' tag is stored with it, and
    [getItem] on it throws. *)
Lemma addItem_stores_no_valueType :
  let added := run (addItem "a" (Text "x") None) (quiet ∅) in
  fst added = inr tt
  ∧ stored_metadata (snd added) "a" = None
  ∧ ¬ (∃ m valueType,
         stored_metadata (snd added) "a" = Some m
         ∧ m !! "valueType" = Some valueType
         ∧ (valueType = VALUE_TYPE_TEXT ∨ valueType = VALUE_TYPE_STREAM))
  ∧ fst (run (getItem "a" []) (snd added))
    = inl (Error "TypeError: Cannot read properties of null (reading 'valueType')").
Proof.
  intros added.
  assert (Hnone : stored_metadata (snd added) "a" = None) by (vm_compute; reflexivity).
  split; [vm_compute; reflexivity|]. split; [exact Hnone|]. split.
  - intros (m & valueType & Hm & _). rewrite Hnone in Hm. discriminate.
  - vm_compute. reflexivity.
Qed.

(** C2, amended.  No write path attaches a value-type tag of its own.
    [addItem] stores exactly the metadata its caller passed in the options,
    none when there are none; [updateItem] re-attaches the metadata already
    stored under the key.  The tag is read, not written: [getAll] reports,
    for each listed key, the [valueType] found in the stored metadata and
    the default 'TEXT' when there is none. *)
Theorem write_paths_pass_metadata_through (key : string) (value : kvValue)
    (options : option KVNamespacePutOptions) (s : store) :
  serves 2 s →
  (key ∉ listed s →
     fst (run (addItem key value options) s) = inr tt
     ∧ stored_metadata (snd (run (addItem key value options) s)) key
       = options ≫= metadata)
  ∧ (fst (run (updateItem key value options) s) = inr tt
     ∧ stored_metadata (snd (run (updateItem key value options) s)) key
       = stored_metadata s key)
  ∧ (∀ t : store,
       serves (S (length (listed t))) t →
       fst (run getAll t) = inr (map (row_of t) (listed t)))
  ∧ (∀ (t : store) (k : string),
       row_key (row_of t k) = k
       ∧ row_valueType (row_of t k)
         = nullish (stored_metadata t k ≫= (λ m : jsObject, m !! "valueType"))
             VALUE_TYPE_TEXT
       ∧ (stored_metadata t k = None → row_valueType (row_of t k) = VALUE_TYPE_TEXT)).
Proof.
  intros Hserved. split; [|split; [|split]].
  - intros Hkey. rewrite addItem_served by assumption. split; [reflexivity|].
    unfold stored_metadata, put_item. cbn [snd received entries item_key].
    by rewrite lookup_insert_eq.
  - rewrite updateItem_served by assumption. split; [reflexivity|].
    unfold stored_metadata at 1. cbn [snd received entries].
    by rewrite lookup_insert_eq.
  - apply run_getAll.
  - intros t k. split; [reflexivity|]. split; [reflexivity|].
    intros Hnone. unfold row_of. by rewrite Hnone.
Qed.

Lemma write_paths_pass_metadata_through_witness :
  stored_metadata (snd (run (addItem "a" (Text "x") None) (quiet ∅))) "a" = None.
Proof.
  assert (Hserved : serves 2 (quiet ∅)) by (vm_compute; constructor).
  assert (Hkey : "a" ∉ listed (quiet ∅)) by (vm_compute; apply not_elem_of_nil).
  exact (proj2 (proj1 (write_paths_pass_metadata_through "a" (Text "x") None (quiet ∅)
                         Hserved) Hkey)).
Defined.

(** ** Entry guards *)

Lemma three_checks_first_rejection (method : string) (check : Check) :
  (check_method check method = false →
     three_checks method check = rejectMethodEnter)
  ∧ (check_method check method = true → check_token check = false →
     three_checks method check = rejectTokenEnter)
  ∧ (check_method check method = true → check_token check = true →
     falsy (headers (check_request check) !! "kv") = true →
     three_checks method check = rejectNotKVEnter)
  ∧ (three_checks method check = acceptEnter
     ↔ check_method check method = true
       ∧ check_token check = true
       ∧ falsy (headers (check_request check) !! "kv") = false).
Proof.
  unfold three_checks.
  destruct (check_method check method), (check_token check),
    (falsy (headers (check_request check) !! "kv")); simpl;
    repeat split; try discriminate; try reflexivity; intros; intuition discriminate.
Qed.

(** C3, as stated, fails: the guard of [/api/verifyToken] lets a POST
    request in with a bad token and without the 'kv' header, which the
    three checks would reject whatever the method they ask for. *)
Lemma verifyToken_guard_checks_method_only :
  let check := {| check_method := λ method, bool_decide (method = "POST");
                  check_token := false;
                  check_request := {| origin := "https://kv.example"; searchParams := ∅;
                                      headers := ∅; body := inr ∅ |};
                  check_env := {| AUTH_TOKEN := "secret"; KV_KEYS := None;
                                  kv_bound := λ _, false |} |} in
  {| path := "/api/verifyToken"; beforeEnter := Some beforeEnter_verifyToken |} ∈ routes
  ∧ beforeEnter_verifyToken check = acceptEnter
  ∧ ∀ method, three_checks method check ≠ acceptEnter.
Proof.
  intros check. split; [|split].
  - unfold routes. repeat constructor.
  - reflexivity.
  - intros method. unfold three_checks.
    destruct (check_method check method); discriminate.
Qed.

Local Ltac not_store_path :=
  let Hpath := fresh "Hpath" in
  intros Hpath; apply (bool_decide_eq_true_2 _) in Hpath;
  vm_compute in Hpath; discriminate.

Local Ltac store_route Hstore :=
  split;
  [ intros _; apply Hstore; [tauto | reflexivity]
  | split; [discriminate|]; split; [discriminate|];
    left; apply (bool_decide_unpack _); vm_compute; exact I ].

(** C3, amended.  The eight routes that work on a selected store
    ([/api/get], [/api/update], [/api/add], [/api/delete], [/api/getList],
    [/api/getKvKeys], [/api/upload], [/api/download]) have a guard that is
    the three checks, for GET or POST, the first rejection winning: a wrong
    method is rejected whatever the token and the header, a bad token
    whatever the header, and the request enters only when all three pass.
    The guard of [/api/getKvList] tests the method, the token and then the
    [KV_KEYS] setting in place of the header; the guard of
    [/api/verifyToken] tests the method only.  These are all the guarded
    routes. *)
Theorem guards_first_rejection_wins (route : RouteConfig) (guard : Check → Enter) :
  route ∈ routes →
  beforeEnter route = Some guard →
  (path route ∈ store_paths →
     ∃ method, (method = "GET" ∨ method = "POST")
       ∧ ∀ check,
           guard check = three_checks method check
           ∧ (check_method check method = false → guard check = rejectMethodEnter)
           ∧ (check_method check method = true → check_token check = false →
              guard check = rejectTokenEnter)
           ∧ (guard check = acceptEnter
              ↔ check_method check method = true
                ∧ check_token check = true
                ∧ falsy (headers (check_request check) !! "kv") = false))
  ∧ (path route = "/api/getKvList" →
     ∀ check,
       guard check =
       if negb (check_method check "GET") then rejectMethodEnter
       else if negb (check_token check) then rejectTokenEnter
       else if falsy (KV_KEYS (check_env check)) then rejectNotKVEnter
       else acceptEnter)
  ∧ (path route = "/api/verifyToken" →
     ∀ check, guard check = acceptEnter ↔ check_method check "POST" = true)
  ∧ (path route ∈ store_paths
     ∨ path route = "/api/getKvList" ∨ path route = "/api/verifyToken").
Proof.
  intros Hroute Hguard. unfold routes in Hroute.
  assert (Hstore : ∀ method,
            method = "GET" ∨ method = "POST" →
            (∀ check, guard check = three_checks method check) →
            ∃ method, (method = "GET" ∨ method = "POST")
              ∧ ∀ check,
                  guard check = three_checks method check
                  ∧ (check_method check method = false → guard check = rejectMethodEnter)
                  ∧ (check_method check method = true → check_token check = false →
                     guard check = rejectTokenEnter)
                  ∧ (guard check = acceptEnter
                     ↔ check_method check method = true
                       ∧ check_token check = true
                       ∧ falsy (headers (check_request check) !! "kv") = false)).
  { intros method Hmethod Heq. exists method. split; [exact Hmethod|].
    intros check. rewrite Heq.
    destruct (three_checks_first_rejection method check) as (H1 & H2 & _ & H4).
    split; [reflexivity|]. split; [exact H1|]. split; [exact H2 | exact H4]. }
  repeat (apply elem_of_cons in Hroute as [->|Hroute]);
    [..|by apply elem_of_nil in Hroute];
    simpl in Hguard; try discriminate; injection Hguard as <-; simpl path.
  - split; [not_store_path|]. split; [discriminate|]. split; [|by right; right].
    intros _ check. unfold beforeEnter_verifyToken.
    destruct (check_method check "POST"); simpl; split; congruence.
  - split; [not_store_path|]. split; [|split; [discriminate | by right; left]].
    intros _ check. reflexivity.
  - store_route (Hstore "GET").
  - store_route (Hstore "POST").
  - store_route (Hstore "POST").
  - store_route (Hstore "POST").
  - store_route (Hstore "GET").
  - store_route (Hstore "GET").
  - store_route (Hstore "POST").
  - store_route (Hstore "GET").
Qed.

Lemma guards_first_rejection_wins_witness :
  ∃ method, (method = "GET" ∨ method = "POST")
    ∧ ∀ check, beforeEnter_get check = three_checks method check.
Proof.
  assert (Hroute : {| path := "/api/get"; beforeEnter := Some beforeEnter_get |} ∈ routes)
    by (unfold routes; repeat constructor).
  assert (Hpath : "/api/get" ∈ store_paths) by (unfold store_paths; repeat constructor).
  destruct (guards_first_rejection_wins _ beforeEnter_get Hroute eq_refl)
    as (Hstore & _).
  destruct (Hstore Hpath) as (method & Hmethod & Hguard).
  exists method. split; [exact Hmethod|]. intros check. apply Hguard.
Defined.

(** ** Clearing the store *)

Lemma run_Promise_all_cons {A : Type} (p : prog A) (ps : list (prog A)) (s : store) :
  run (Promise_all (p :: ps)) s =
  (match fst (run p s), fst (run (Promise_all ps) (snd (run p s))) with
   | inl e, _ => inl e
   | inr _, inl e => inl e
   | inr a, inr others => inr (a :: others)
   end,
   snd (run (Promise_all ps) (snd (run p s)))).
Proof.
  cbn [Promise_all]. rewrite run_bind, run_settle. cbn [fst snd].
  rewrite run_bind, run_settle. cbn [fst snd].
  destruct (fst (run p s)); destruct (fst (run (Promise_all ps) (snd (run p s))));
    reflexivity.
Qed.

Lemma run_clear_deletes_cons (name : string) (names : list string) (s : store) :
  run (clear_deletes (map mkListKey (name :: names))) s =
  (match fst (perform (kv_delete name) s),
         fst (run (clear_deletes (map mkListKey names)) (snd (perform (kv_delete name) s)))
   with
   | inl e, _ => inl e
   | inr _, inl e => inl e
   | inr a, inr others => inr (a :: others)
   end,
   snd (run (clear_deletes (map mkListKey names)) (snd (perform (kv_delete name) s)))).
Proof.
  unfold clear_deletes. cbn [map key_name]. rewrite run_Promise_all_cons.
  rewrite (run_await (kv_delete name)). reflexivity.
Qed.

Lemma clear_deletes_log (names : list string) (s : store) :
  log (snd (run (clear_deletes (map mkListKey names)) s))
  = log s ++ map kv_delete names.
Proof.
  revert s. induction names as [|name names IH]; intros s.
  - simpl. by rewrite app_nil_r.
  - rewrite run_clear_deletes_cons. cbn [snd]. rewrite IH, perform_log.
    by rewrite <- app_assoc.
Qed.

Lemma clear_deletes_faults (names : list string) (s : store) :
  faults (snd (run (clear_deletes (map mkListKey names)) s))
  = drop (length names) (faults s).
Proof.
  revert s. induction names as [|name names IH]; intros s.
  - reflexivity.
  - rewrite run_clear_deletes_cons. cbn [snd]. rewrite IH, perform_faults.
    destruct (faults s); [simpl; by rewrite drop_nil | reflexivity].
Qed.

Lemma perform_delete_entries (name : string) (s : store) :
  entries (snd (perform (kv_delete name) s))
  = match next_fault s with
    | Some _ => entries s
    | None => delete name (entries s)
    end.
Proof. unfold perform. destruct (next_fault s); reflexivity. Qed.

Lemma perform_delete_lookup (name key : string) (s : store) :
  entries s !! key = None ∨ name ≠ key →
  entries (snd (perform (kv_delete name) s)) !! key = entries s !! key.
Proof.
  intros Hkey. rewrite perform_delete_entries.
  destruct (next_fault s); [reflexivity|].
  destruct Hkey as [Hnone|Hne].
  - rewrite Hnone. apply lookup_delete_None. by right.
  - by apply lookup_delete_ne.
Qed.

Lemma clear_deletes_other (names : list string) (s : store) (key : string) :
  entries s !! key = None ∨ key ∉ names →
  entries (snd (run (clear_deletes (map mkListKey names)) s)) !! key
  = entries s !! key.
Proof.
  revert s. induction names as [|name names IH]; intros s Hkey.
  - reflexivity.
  - rewrite run_clear_deletes_cons. cbn [snd].
    assert (Hstep : entries (snd (perform (kv_delete name) s)) !! key
                    = entries s !! key).
    { apply perform_delete_lookup. destruct Hkey as [Hnone|Hout]; [by left|].
      right. intros ->. apply Hout. by left. }
    rewrite IH; [exact Hstep|]. rewrite Hstep.
    destruct Hkey as [Hnone|Hout]; [by left|].
    right. intros Hin. apply Hout. by right.
Qed.

Lemma served_at_next (s : store) : served_at 0 s ↔ next_fault s = None.
Proof.
  unfold served_at, next_fault. destruct (faults s) as [|[e|] fs]; simpl.
  - split; [reflexivity | intros _ e; discriminate].
  - split; [intros H; by destruct (H e) | discriminate].
  - split; [reflexivity | intros _ e; discriminate].
Qed.

Lemma served_at_perform (i : nat) (c : kvCall) (s : store) :
  served_at (S i) s → served_at i (snd (perform c s)).
Proof.
  unfold served_at. rewrite perform_faults. intros H e.
  destruct (faults s) as [|f fs]; simpl; [by rewrite lookup_nil | apply H].
Qed.

Lemma clear_deletes_served (names : list string) (s : store) (i : nat) (key : string) :
  names !! i = Some key →
  served_at i s →
  entries (snd (run (clear_deletes (map mkListKey names)) s)) !! key = None.
Proof.
  revert s i. induction names as [|name names IH]; intros s i Hi Hserved.
  - discriminate.
  - rewrite run_clear_deletes_cons. cbn [snd]. destruct i as [|i].
    + injection Hi as ->. apply served_at_next in Hserved.
      rewrite clear_deletes_other.
      * rewrite perform_delete_entries, Hserved. apply lookup_delete_eq.
      * left. rewrite perform_delete_entries, Hserved. apply lookup_delete_eq.
    + apply (IH _ i); [exact Hi | by apply served_at_perform].
Qed.

Lemma clear_deletes_resolved (names : list string) (s : store) (done : list unit) :
  fst (run (clear_deletes (map mkListKey names)) s) = inr done →
  ∀ i, (i < length names)%nat → served_at i s.
Proof.
  revert s done. induction names as [|name names IH]; intros s done Hrun i Hi.
  - simpl in Hi. lia.
  - rewrite run_clear_deletes_cons in Hrun. cbn [fst] in Hrun.
    destruct (next_fault s) as [e|] eqn:Hs.
    { by rewrite (perform_rejected _ _ _ Hs) in Hrun. }
    destruct (fst (run (clear_deletes (map mkListKey names)) _)) as [e|others] eqn:Hrest.
    { by destruct (fst (perform (kv_delete name) s)). }
    destruct i as [|i]; [by apply served_at_next|].
    simpl in Hi. specialize (IH _ _ Hrest i ltac:(lia)).
    unfold served_at in *. rewrite perform_faults in IH. intros e.
    destruct (faults s) as [|f fs]; simpl; [discriminate | apply IH].
Qed.

Lemma run_clear (s : store) :
  run clear s =
  match next_fault s with
  | Some e => (inl (new_Error e), received s kv_list (entries s))
  | None =>
      let deleted := run (clear_deletes (map mkListKey (listed s)))
                         (received s kv_list (entries s)) in
      (match fst deleted with
       | inl e => inl (new_Error e)
       | inr _ => inr tt
       end, snd deleted)
  end.
Proof.
  unfold clear. rewrite run_rethrow, run_bind, (run_await kv_list).
  destruct (next_fault s) as [e|] eqn:Hs;
    [by rewrite (perform_rejected _ _ _ Hs) | rewrite (perform_served _ _ Hs)].
  cbn [fst snd serve]. fold (clear_deletes (map mkListKey (listed s))).
  rewrite run_bind.
  destruct (fst (run (clear_deletes _) (received s kv_list (entries s))));
    reflexivity.
Qed.

Lemma clear_resolved_list_served (s : store) :
  fst (run clear s) = inr tt → next_fault s = None.
Proof.
  rewrite run_clear. destruct (next_fault s); [discriminate | reflexivity].
Qed.

Lemma listed_all (s : store) (key : string) :
  (size (entries s) ≤ list_limit s)%nat →
  key ∉ listed s → entries s !! key = None.
Proof.
  intros Hlimit Hout. unfold listed in Hout.
  rewrite take_ge in Hout by (by rewrite length_map, length_map_to_list).
  destruct (entries s !! key) as [e|] eqn:Hkey; [|reflexivity].
  exfalso. apply Hout. apply list_elem_of_fmap. exists (key, e).
  split; [reflexivity|]. by apply elem_of_map_to_list.
Qed.

(** C4.  [clear] lists the keys and starts a delete for each listed key,
    in the order of the list.  After a clear that succeeded, every listed
    key is gone, the keys that were not listed are as before, and the store
    is empty when the list call returned all its keys.  The batch is not
    atomic: whenever the list call is served, all the deletes are issued,
    and a listed key whose delete was served is gone even if another delete
    was rejected and the clear failed. *)
Theorem clear_deletes_listed_keys (s : store) :
  (fst (run clear s) = inr tt →
     (∀ key, key ∈ listed s → entries (snd (run clear s)) !! key = None)
     ∧ (∀ key, key ∉ listed s → entries (snd (run clear s)) !! key = entries s !! key)
     ∧ log (snd (run clear s)) = log s ++ kv_list :: map kv_delete (listed s)
     ∧ ((size (entries s) ≤ list_limit s)%nat → entries (snd (run clear s)) = ∅))
  ∧ (next_fault s = None →
     log (snd (run clear s)) = log s ++ kv_list :: map kv_delete (listed s)
     ∧ (∀ i key, listed s !! i = Some key → served_at (S i) s →
          entries (snd (run clear s)) !! key = None)
     ∧ (∀ key, key ∉ listed s → entries (snd (run clear s)) !! key = entries s !! key)).
Proof.
  assert (Hlog : next_fault s = None →
            log (snd (run clear s)) = log s ++ kv_list :: map kv_delete (listed s)).
  { intros Hs. rewrite run_clear, Hs. cbn [snd]. rewrite clear_deletes_log.
    simpl. by rewrite <- app_assoc. }
  assert (Hother : next_fault s = None → ∀ key, key ∉ listed s →
            entries (snd (run clear s)) !! key = entries s !! key).
  { intros Hs key Hout. rewrite run_clear, Hs. cbn [snd].
    rewrite clear_deletes_other; [reflexivity | by right]. }
  assert (Hgone : fst (run clear s) = inr tt → ∀ key, key ∈ listed s →
            entries (snd (run clear s)) !! key = None).
  { intros Hok key Hin. pose proof (clear_resolved_list_served s Hok) as Hs.
    rewrite run_clear, Hs in Hok |- *. cbn [fst snd] in Hok |- *.
    apply list_elem_of_lookup in Hin as [i Hi].
    apply (clear_deletes_served _ _ i); [exact Hi|].
    destruct (fst (run (clear_deletes _) _)) as [e|done] eqn:Hdel; [discriminate|].
    apply (clear_deletes_resolved _ _ _ Hdel). by apply lookup_lt_Some in Hi. }
  split.
  - intros Hok. pose proof (clear_resolved_list_served s Hok) as Hs.
    split; [by apply Hgone|]. split; [by apply Hother|]. split; [by apply Hlog|].
    intros Hlimit. apply map_empty. intros key.
    destruct (decide (key ∈ listed s)) as [Hin|Hout]; [by apply Hgone|].
    rewrite Hother by assumption. by apply listed_all.
  - intros Hs. split; [by apply Hlog|]. split; [|by apply Hother].
    intros i key Hi Hserved. rewrite run_clear, Hs. cbn [snd].
    apply (clear_deletes_served _ _ i); [exact Hi|].
    unfold served_at in *. simpl. intros e.
    destruct (faults s) as [|f fs]; simpl; [by rewrite lookup_nil | apply Hserved].
Qed.

Lemma clear_deletes_listed_keys_witness :
  let blank := mkEntry (Text "x") (mkPutOptions None None None) in
  entries (snd (run clear (quiet {[ "a" := blank; "b" := blank ]}))) = ∅.
Proof.
  intros blank.
  destruct (clear_deletes_listed_keys (quiet {[ "a" := blank; "b" := blank ]}))
    as [Hok _].
  apply Hok; [vm_compute; reflexivity|]. vm_compute. lia.
Defined.

(** A clear whose second delete is rejected fails, and has deleted the
    other key all the same. *)
Example clear_partial :
  let blank := mkEntry (Text "x") (mkPutOptions None None None) in
  let s := {| entries := {[ "a" := blank; "b" := blank ]}; list_limit := 1000;
              faults := [None; None; Some (Error "boom")]; log := [] |} in
  listed s = ["a"; "b"]
  ∧ fst (run clear s) = inl (Error "Error: boom")
  ∧ entries (snd (run clear s)) = {[ "b" := blank ]}.
Proof. vm_compute. repeat split. Qed.

(** ** Batches *)

Lemma addItem_entries (key : string) (value : kvValue)
    (options : option KVNamespacePutOptions) (s : store) :
  entries (snd (run (addItem key value options) s))
  = match fst (run (addItem key value options) s) with
    | inl _ => entries s
    | inr _ => put_item (entries s) (mkItem key value options)
    end.
Proof.
  rewrite run_addItem. cbv zeta.
  destruct (next_fault s); [reflexivity|].
  destruct (includes (listed s) key); [reflexivity|].
  destruct (next_fault (received s kv_list (entries s))); reflexivity.
Qed.

Lemma deleteItem_entries (key : string) (s : store) :
  entries (snd (run (deleteItem key) s))
  = match fst (run (deleteItem key) s) with
    | inl _ => entries s
    | inr _ => delete key (entries s)
    end.
Proof. rewrite run_deleteItem. destruct (next_fault s); reflexivity. Qed.

Lemma for_await_addItems_entries (items : list Item) (s : store) :
  fst (run (for_await items addItems_body) s) = inr tt →
  entries (snd (run (for_await items addItems_body) s))
  = foldl put_item (entries s) items.
Proof.
  revert s. induction items as [|item items IH]; intros s Hok.
  - reflexivity.
  - rewrite run_for_await_cons in Hok |- *.
    pose proof (addItem_entries (item_key item) (item_value item)
                  (item_options item) s) as Hstep.
    fold (addItems_body item) in Hstep.
    destruct (fst (run (addItems_body item) s)); [discriminate|].
    rewrite IH by exact Hok. cbn [foldl]. rewrite Hstep.
    destruct item; reflexivity.
Qed.

Lemma for_await_deleteItem_entries (keys : list string) (s : store) :
  fst (run (for_await keys deleteItem) s) = inr tt →
  entries (snd (run (for_await keys deleteItem) s))
  = foldl (λ m key, delete key m) (entries s) keys.
Proof.
  revert s. induction keys as [|key keys IH]; intros s Hok.
  - reflexivity.
  - rewrite run_for_await_cons in Hok |- *.
    pose proof (deleteItem_entries key s) as Hstep.
    destruct (fst (run (deleteItem key) s)); [discriminate|].
    rewrite IH by exact Hok. cbn [foldl]. by rewrite Hstep.
Qed.

Lemma for_await_stops {X : Type} (done : list X) (x : X) (rest : list X)
    (body : X → prog unit) (s : store) (e : JsError) :
  fst (run (for_await done body) s) = inr tt →
  fst (run (body x) (snd (run (for_await done body) s))) = inl e →
  run (for_await (done ++ x :: rest) body) s
  = (inl e, snd (run (body x) (snd (run (for_await done body) s)))).
Proof.
  intros Hdone Hx. rewrite run_for_await_app, Hdone, run_for_await_cons, Hx.
  reflexivity.
Qed.

(** C7.  [addItems] and [deleteItems] go through their array in order and
    stop at the first element that fails, undoing nothing: when the
    elements before it have been added (deleted) and the element itself
    fails with [e], the call fails, with [e] re-thrown by its catch block;
    the store is the one that element's attempt left, in which the elements
    before it are added (deleted); the elements after it are not tried. *)
Theorem batches_stop_without_rollback (s : store) :
  (∀ (done : list Item) (item : Item) (rest : list Item) (e : JsError),
     let before := snd (run (for_await done addItems_body) s) in
     fst (run (for_await done addItems_body) s) = inr tt →
     fst (run (addItems_body item) before) = inl e →
     run (addItems (done ++ item :: rest)) s
     = (inl (new_Error e), snd (run (addItems_body item) before))
     ∧ entries (snd (run (addItems (done ++ item :: rest)) s))
       = foldl put_item (entries s) done)
  ∧ (∀ (done : list string) (key : string) (rest : list string) (e : JsError),
     let before := snd (run (for_await done deleteItem) s) in
     fst (run (for_await done deleteItem) s) = inr tt →
     fst (run (deleteItem key) before) = inl e →
     run (deleteItems (done ++ key :: rest)) s
     = (inl (new_Error e), snd (run (deleteItem key) before))
     ∧ entries (snd (run (deleteItems (done ++ key :: rest)) s))
       = foldl (λ m k, delete k m) (entries s) done).
Proof.
  split.
  - intros done item rest e before Hdone Hitem.
    assert (Hrun : run (addItems (done ++ item :: rest)) s
                   = (inl (new_Error e), snd (run (addItems_body item) before))).
    { unfold addItems. rewrite run_rethrow.
      rewrite bool_decide_eq_false_2
        by (rewrite length_app; simpl; lia).
      change (for_await (done ++ item :: rest) _)
        with (for_await (done ++ item :: rest) addItems_body).
      by rewrite (for_await_stops done item rest addItems_body s e Hdone Hitem). }
    split; [exact Hrun|]. rewrite Hrun. cbn [snd].
    destruct item as [key value options]. unfold addItems_body in Hitem |- *.
    cbn [item_key item_value item_options] in *.
    rewrite addItem_entries, Hitem. by apply for_await_addItems_entries.
  - intros done key rest e before Hdone Hkey.
    assert (Hrun : run (deleteItems (done ++ key :: rest)) s
                   = (inl (new_Error e), snd (run (deleteItem key) before))).
    { unfold deleteItems. rewrite run_rethrow.
      rewrite bool_decide_eq_false_2
        by (rewrite length_app; simpl; lia).
      change (for_await (done ++ key :: rest) _)
        with (for_await (done ++ key :: rest) deleteItem).
      by rewrite (for_await_stops done key rest deleteItem s e Hdone Hkey). }
    split; [exact Hrun|]. rewrite Hrun. cbn [snd].
    rewrite deleteItem_entries, Hkey. by apply for_await_deleteItem_entries.
Qed.

Lemma batches_stop_without_rollback_witness :
  let blank := mkEntry (Text "x") (mkPutOptions None None None) in
  let s := quiet {[ "a" := blank ]} in
  let batch := [mkItem "b" (Text "1") None; mkItem "a" (Text "2") None;
                mkItem "c" (Text "3") None] in
  fst (run (addItems batch) s) = inl (Error "Error: Error: Key a already exists")
  ∧ entries (snd (run (addItems batch) s))
    = foldl put_item (entries s) [mkItem "b" (Text "1") None].
Proof.
  intros blank s batch.
  destruct (batches_stop_without_rollback s) as [Hadd _].
  destruct (Hadd [mkItem "b" (Text "1") None] (mkItem "a" (Text "2") None)
              [mkItem "c" (Text "3") None]
              (Error "Error: Key a already exists")) as [Hrun Hentries].
  - vm_compute. reflexivity.
  - vm_compute. reflexivity.
  - split; [|exact Hentries]. change batch with
      ([mkItem "b" (Text "1") None] ++ mkItem "a" (Text "2") None
         :: [mkItem "c" (Text "3") None]).
    rewrite Hrun. reflexivity.
Defined.

(** ** Rejections of the service *)

Lemma rejection_after_length (n : nat) (e : JsError) (rest : list (option JsError)) :
  length (rejection_after n e rest) = (n + S (length rest))%nat.
Proof. unfold rejection_after. rewrite length_app, length_replicate. reflexivity. Qed.

Lemma rejected_now (s : store) (e : JsError) (rest : list (option JsError)) :
  faults s = rejection_after 0 e rest → next_fault s = Some e ∧ tail (faults s) = rest.
Proof. unfold next_fault. intros ->. split; reflexivity. Qed.

Lemma rejected_later (s : store) (n : nat) (e : JsError) (rest : list (option JsError)) :
  faults s = rejection_after (S n) e rest →
  next_fault s = None ∧ tail (faults s) = rejection_after n e rest.
Proof. unfold next_fault. intros ->. split; reflexivity. Qed.

Lemma run_faults_length {A : Type} (p : prog A) (s : store) :
  (length (faults (snd (run p s))) ≤ length (faults s))%nat.
Proof.
  revert s. induction p as [a|e|c k IH]; intros s; try reflexivity.
  simpl. etransitivity; [apply IH|]. rewrite perform_faults.
  destruct (faults s); simpl; lia.
Qed.

Lemma hands_on_Ret (W : JsError → JsError) {A : Type} (a : A) : hands_on W (Ret a).
Proof. intros s n e rest H. left. by exists n. Qed.

Lemma hands_on_Throw (W : JsError → JsError) {A : Type} (e0 : JsError) :
  hands_on W (Throw e0 : prog A).
Proof. intros s n e rest H. left. by exists n. Qed.

Lemma hands_on_await (c : kvCall) : hands_on id (await c).
Proof.
  intros s n e rest H. rewrite run_await. destruct n as [|n].
  - apply rejected_now in H as [Hnext Htail]. right.
    rewrite (perform_rejected _ _ _ Hnext). simpl. by rewrite Htail.
  - apply rejected_later in H as [Hnext Htail]. left. exists n.
    by rewrite perform_faults.
Qed.

Lemma hands_on_bind (W : JsError → JsError) {A B : Type} (p : prog A)
    (f : A → prog B) :
  hands_on W p → (∀ a, hands_on W (f a)) → hands_on W (p ≫= f).
Proof.
  intros Hp Hf s n e rest H. rewrite run_bind.
  destruct (Hp s n e rest H) as [[n' Hpending]|[Hlen Hthrown]].
  - destruct (fst (run p s)) as [e0|a].
    + left. by exists n'.
    + by apply (Hf a _ n').
  - rewrite Hthrown. right. by split.
Qed.

Lemma hands_on_rethrow (W : JsError → JsError) {A : Type} (p : prog A) :
  hands_on W p →
  hands_on (λ e, new_Error (W e)) (try_catch p (λ error, Throw (new_Error error))).
Proof.
  intros Hp s n e rest H. rewrite run_rethrow.
  destruct (Hp s n e rest H) as [[n' Hpending]|[Hlen Hthrown]].
  - left. exists n'. by destruct (fst (run p s)).
  - rewrite Hthrown. right. by split.
Qed.

Lemma hands_on_for_await (W : JsError → JsError) {X : Type} (xs : list X)
    (body : X → prog unit) :
  (∀ x, hands_on W (body x)) → hands_on W (for_await xs body).
Proof.
  intros Hbody. induction xs as [|x xs IH].
  - apply hands_on_Ret.
  - cbn [for_await]. apply hands_on_bind; [apply Hbody | intros _; exact IH].
Qed.

Lemma list_keys_eta (keys : list KVNamespaceListKey) :
  map mkListKey (map key_name keys) = keys.
Proof.
  induction keys as [|[name0] keys IH]; [reflexivity|]. simpl. by rewrite IH.
Qed.

Lemma hands_on_clear_deletes (keys : list KVNamespaceListKey) :
  hands_on id (clear_deletes keys).
Proof.
  rewrite <- (list_keys_eta keys). generalize (map key_name keys) as names.
  clear keys. intros names. induction names as [|name names IH];
    intros s n e rest H.
  - left. by exists n.
  - rewrite run_clear_deletes_cons. cbn [fst snd]. destruct n as [|n].
    + apply rejected_now in H as [Hnext Htail]. right.
      rewrite (perform_rejected _ _ _ Hnext). cbn [fst snd]. split; [|reflexivity].
      etransitivity; [apply run_faults_length|]. simpl. by rewrite Htail.
    + apply rejected_later in H as [Hnext Htail].
      rewrite (perform_served _ _ Hnext). cbn [fst snd].
      destruct (IH (received s (kv_delete name) (snd (serve (kv_delete name) s)))
                  n e rest Htail) as [[n' Hpending]|[Hlen Hthrown]].
      * left. by exists n'.
      * right. split; [exact Hlen|]. by rewrite Hthrown.
Qed.

Lemma hands_on_getAll_loop (keys : list KVNamespaceListKey) (result : list Row) :
  hands_on id (getAll_loop keys result).
Proof.
  revert result. induction keys as [|key keys IH]; intros result.
  - apply hands_on_Ret.
  - cbn [getAll_loop].
    apply hands_on_bind; [apply (hands_on_await (kv_getWithMetadata _ _ _))|].
    intros r. apply IH.
Qed.

Lemma hands_on_getKeys : hands_on id getKeys.
Proof.
  unfold getKeys. apply hands_on_bind; [apply (hands_on_await kv_list)|].
  intros keys. apply hands_on_Ret.
Qed.

Lemma hands_on_hasKey (key : string) : hands_on id (hasKey key).
Proof.
  unfold hasKey. apply hands_on_bind; [apply hands_on_getKeys|].
  intros keys. apply hands_on_Ret.
Qed.

Lemma hands_on_getAll : hands_on id getAll.
Proof.
  unfold getAll. apply hands_on_bind; [apply (hands_on_await kv_list)|].
  intros keys. apply hands_on_getAll_loop.
Qed.

Lemma hands_on_addItem (key : string) (value : kvValue)
    (options : option KVNamespacePutOptions) :
  hands_on new_Error (addItem key value options).
Proof.
  unfold addItem. apply (hands_on_rethrow id).
  apply hands_on_bind; [apply hands_on_hasKey|].
  intros [|]; [apply hands_on_Throw | apply (hands_on_await (kv_put _ _ _))].
Qed.

Lemma hands_on_updateItem (key : string) (value : kvValue)
    (options : option KVNamespacePutOptions) :
  hands_on new_Error (updateItem key value options).
Proof.
  unfold updateItem. apply (hands_on_rethrow id).
  apply hands_on_bind; [apply (hands_on_await (kv_getWithMetadata _ _ _))|].
  intros r. apply (hands_on_await (kv_put _ _ _)).
Qed.

Lemma hands_on_getItem (key : string) (options : list string) :
  hands_on new_Error (getItem key options).
Proof.
  unfold getItem. apply (hands_on_rethrow id).
  apply hands_on_bind; [apply (hands_on_await (kv_get _ _))|]. intros value.
  apply hands_on_bind; [apply (hands_on_await (kv_getWithMetadata _ _ _))|].
  intros r.
  apply hands_on_bind; [|intros valueType; apply hands_on_Ret].
  unfold metadata_valueType. destruct (snd r);
    [apply hands_on_Ret | apply hands_on_Throw].
Qed.

Lemma hands_on_deleteItem (key : string) : hands_on new_Error (deleteItem key).
Proof.
  unfold deleteItem. apply (hands_on_rethrow id).
  apply (hands_on_await (kv_delete _)).
Qed.

Lemma hands_on_addItems (items : list Item) :
  hands_on (λ e, new_Error (new_Error e)) (addItems items).
Proof.
  unfold addItems. apply (hands_on_rethrow new_Error).
  destruct (bool_decide _); [apply hands_on_Throw|].
  apply hands_on_for_await. intros item. apply hands_on_addItem.
Qed.

Lemma hands_on_deleteItems (keys : list string) :
  hands_on (λ e, new_Error (new_Error e)) (deleteItems keys).
Proof.
  unfold deleteItems. apply (hands_on_rethrow new_Error).
  destruct (bool_decide _); [apply hands_on_Throw|].
  apply hands_on_for_await. intros key. apply hands_on_deleteItem.
Qed.

Lemma hands_on_clear : hands_on new_Error clear.
Proof.
  unfold clear. apply (hands_on_rethrow id).
  apply hands_on_bind; [apply (hands_on_await kv_list)|]. intros keys.
  apply hands_on_bind; [apply hands_on_clear_deletes|].
  intros done. apply hands_on_Ret.
Qed.

Lemma string_app_nil_r (a : string) : a +:+ "" = a.
Proof.
  induction a as [|x a IH]; [reflexivity|].
  change (String x a +:+ "") with (String x (a +:+ "")). by rewrite IH.
Qed.

Lemma string_app_assoc (a b c : string) : (a +:+ b) +:+ c = a +:+ b +:+ c.
Proof.
  induction a as [|x a IH]; [reflexivity|].
  change ((String x a +:+ b) +:+ c) with (String x ((a +:+ b) +:+ c)).
  by rewrite IH.
Qed.

Lemma string_length_app (a b : string) :
  String.length (a +:+ b) = (String.length a + String.length b)%nat.
Proof.
  induction a as [|x a IH]; [reflexivity|].
  change (String.length (String x a +:+ b)) with (S (String.length (a +:+ b))).
  rewrite IH. reflexivity.
Qed.

Lemma string_length_pos (a : string) : a ≠ "" → (0 < String.length a)%nat.
Proof. destruct a; [congruence | simpl; lia]. Qed.

Lemma toString_suffix (e : JsError) : ∃ prefix, toString e = prefix +:+ message e.
Proof.
  unfold toString. destruct (decide (name e = "")); [by exists ""|].
  destruct (decide (message e = "")) as [->|].
  - exists (name e). by rewrite string_app_nil_r.
  - exists (name e +:+ ": "). by rewrite string_app_assoc.
Qed.

Lemma toString_longer (e : JsError) :
  name e ≠ "" → (String.length (message e) < String.length (toString e))%nat.
Proof.
  intros Hname. unfold toString. destruct (decide (name e = "")); [contradiction|].
  pose proof (string_length_pos _ Hname).
  destruct (decide (message e = "")) as [->|]; [simpl; lia|].
  rewrite !string_length_app. simpl. lia.
Qed.

Lemma rethrown_suffix (k : nat) (e : JsError) :
  ∃ prefix, message (Nat.iter k new_Error e) = prefix +:+ message e.
Proof.
  induction k as [|k [prefix IH]]; [by exists ""|].
  simpl. destruct (toString_suffix (Nat.iter k new_Error e)) as [prefix' ->].
  exists (prefix' +:+ prefix). by rewrite IH, string_app_assoc.
Qed.

Lemma rethrown_longer (k : nat) (e : JsError) :
  name e ≠ "" →
  name (Nat.iter k new_Error e) ≠ ""
  ∧ (String.length (message e) ≤ String.length (message (Nat.iter k new_Error e)))%nat
  ∧ (k ≠ 0%nat →
     (String.length (message e) < String.length (message (Nat.iter k new_Error e)))%nat).
Proof.
  intros Hname. induction k as [|k (IHname & IHle & _)].
  - split; [exact Hname|]. split; [reflexivity | congruence].
  - simpl. split; [discriminate|].
    pose proof (toString_longer _ IHname). split; [lia | intros _; lia].
Qed.

Lemma operation_hands_on (op : operation) (s : store) (n : nat) (e : JsError)
    (rest : list (option JsError)) :
  faults s = rejection_after n e rest →
  (∃ n', faults (snd (invoke op s)) = rejection_after n' e rest)
  ∨ ((length (faults (snd (invoke op s))) ≤ length rest)%nat
     ∧ fst (invoke op s) = Some (rethrown op e)).
Proof.
  intros H.
  assert (Houtcome : ∀ (A : Type) (p : prog A) (W : JsError → JsError),
            hands_on W p →
            (∃ n', faults (snd (outcome (run p s))) = rejection_after n' e rest)
            ∨ ((length (faults (snd (outcome (run p s)))) ≤ length rest)%nat
               ∧ fst (outcome (run p s)) = Some (W e))).
  { intros A p W Hp. unfold outcome. cbn [fst snd].
    destruct (Hp s n e rest H) as [Hpending|[Hlen Hthrown]]; [by left|].
    right. by rewrite Hthrown. }
  destruct op; cbn [invoke].
  - apply (Houtcome _ _ id), hands_on_hasKey.
  - apply (Houtcome _ _ new_Error), hands_on_addItem.
  - apply (Houtcome _ _ (λ e, new_Error (new_Error e))), hands_on_addItems.
  - apply (Houtcome _ _ new_Error), hands_on_updateItem.
  - apply (Houtcome _ _ new_Error), hands_on_getItem.
  - apply (Houtcome _ _ new_Error), hands_on_deleteItem.
  - apply (Houtcome _ _ (λ e, new_Error (new_Error e))), hands_on_deleteItems.
  - apply (Houtcome _ _ new_Error), hands_on_clear.
  - apply (Houtcome _ _ id), hands_on_getAll.
  - apply (Houtcome _ _ id), hands_on_getKeys.
Qed.

(** C5, as stated, fails: when the service rejects the delete with a
    [TypeError] 'boom', [deleteItem] throws an [Error] whose message is
    'TypeError: boom', not 'boom'; and [getKeys], which has no catch block,
    lets the [TypeError] itself through instead of a generic [Error]. *)
Lemma deleteItem_rethrows_other_message :
  let s := {| entries := ∅; list_limit := 1000;
              faults := [Some (TypeError "boom")]; log := [] |} in
  fst (run (deleteItem "a") s) = inl (Error "TypeError: boom")
  ∧ message (Error "TypeError: boom") ≠ message (TypeError "boom")
  ∧ fst (run getKeys s) = inl (TypeError "boom")
  ∧ name (TypeError "boom") ≠ "Error".
Proof. vm_compute. repeat split; discriminate. Qed.

(** C5, amended.  When the service rejects a call of an operation with [e],
    what the operation throws is [e] passed through [new Error(error)] once
    per catch block on the way: once in [addItem], [updateItem], [getItem],
    [deleteItem] and [clear], twice in [addItems] and [deleteItems], not at
    all in [hasKey], [getAll] and [getKeys], which let [e] through as it is.
    Through a catch block the error is a plain [Error] whose message is the
    string form of the caught error (its name, ': ', its message): the
    original message is kept at the end of the new one, and is not the whole
    of it. *)
Theorem rejections_rethrown_through_catches (op : operation) (s : store)
    (n : nat) (e : JsError) (rest : list (option JsError)) :
  faults s = rejection_after n e rest →
  (length (faults (snd (invoke op s))) ≤ length rest)%nat →
  fst (invoke op s) = Some (rethrown op e)
  ∧ (catches op = 0%nat → rethrown op e = e)
  ∧ (catches op ≠ 0%nat → name (rethrown op e) = "Error")
  ∧ (catches op = 1%nat → message (rethrown op e) = toString e)
  ∧ (∃ prefix, message (rethrown op e) = prefix +:+ message e)
  ∧ (catches op ≠ 0%nat → name e ≠ "" → message (rethrown op e) ≠ message e).
Proof.
  intros Hfaults Hreached. split; [|split; [|split; [|split; [|split]]]].
  - destruct (operation_hands_on op s n e rest Hfaults)
      as [[n' Hpending]|[_ Hthrown]]; [|exact Hthrown].
    rewrite Hpending, rejection_after_length in Hreached. lia.
  - unfold rethrown. by intros ->.
  - unfold rethrown. destruct (catches op); [congruence | reflexivity].
  - unfold rethrown. by intros ->.
  - apply rethrown_suffix.
  - intros Hcatches Hname Heq. unfold rethrown in Heq.
    destruct (rethrown_longer (catches op) e Hname) as (_ & _ & Hlt).
    specialize (Hlt Hcatches). rewrite Heq in Hlt. lia.
Qed.

Lemma rejections_rethrown_through_catches_witness :
  let s := {| entries := ∅; list_limit := 1000;
              faults := [Some (Error "boom")]; log := [] |} in
  fst (invoke (call_deleteItem "a") s) = Some (Error "Error: boom").
Proof.
  intros s.
  assert (Hreached : (length (faults (snd (invoke (call_deleteItem "a") s))) ≤ 0)%nat)
    by (vm_compute; lia).
  exact (proj1 (rejections_rethrown_through_catches (call_deleteItem "a") s 0
                  (Error "boom") [] eq_refl Hreached)).
Defined.

(** * Further properties of the controller and the handlers *)

(** ** Reading never writes *)

Lemma run_log_trace {A : Type} (p : prog A) (s : store) :
  log (snd (run p s)) = log s ++ trace p s.
Proof.
  revert s. induction p as [a|e|c k IH]; intros s; simpl;
    try (by rewrite app_nil_r).
  rewrite IH, perform_log, <- app_assoc. reflexivity.
Qed.

Lemma read_only_bind {A B : Type} (p : prog A) (f : A → prog B) :
  read_only p → (∀ a, read_only (f a)) → read_only (p ≫= f).
Proof.
  intros Hp Hf. induction Hp as [a|e|c k Hc Hk IH].
  - apply Hf.
  - constructor.
  - change (read_only (Call c (λ r, k r ≫= f))). by constructor.
Qed.

Lemma read_only_try_catch {A : Type} (p : prog A) (h : JsError → prog A) :
  read_only p → (∀ e, read_only (h e)) → read_only (try_catch p h).
Proof.
  intros Hp Hh. induction Hp as [a|e|c k Hc Hk IH]; simpl.
  - constructor.
  - apply Hh.
  - by constructor.
Qed.

Lemma read_only_await (c : kvCall) : is_read c = true → read_only (await c).
Proof. intros Hc. constructor; [exact Hc|]. intros [e|a]; constructor. Qed.

Lemma perform_read_entries (c : kvCall) (s : store) :
  is_read c = true → entries (snd (perform c s)) = entries s.
Proof.
  intros Hc. unfold perform. destruct (next_fault s); [reflexivity|].
  destruct c; try discriminate; reflexivity.
Qed.

Lemma read_only_run {A : Type} (p : prog A) (s : store) :
  read_only p →
  entries (snd (run p s)) = entries s ∧ forallb is_read (trace p s) = true.
Proof.
  intros Hp. revert s. induction Hp as [a|e|c k Hc Hk IH]; intros s;
    try (split; reflexivity).
  simpl. destruct (IH (fst (perform c s)) (snd (perform c s))) as [-> ->].
  rewrite Hc. split; [by apply perform_read_entries | reflexivity].
Qed.

Lemma read_only_getKeys : read_only getKeys.
Proof.
  unfold getKeys. apply read_only_bind; [by apply (read_only_await kv_list)|].
  intros keys. constructor.
Qed.

Lemma read_only_hasKey (key : string) : read_only (hasKey key).
Proof.
  unfold hasKey. apply read_only_bind; [apply read_only_getKeys|].
  intros keys. constructor.
Qed.

Lemma read_only_getItem (key : string) (options : list string) :
  read_only (getItem key options).
Proof.
  unfold getItem. apply read_only_try_catch; [|intros e; constructor].
  apply read_only_bind; [by apply (read_only_await (kv_get _ _))|]. intros value.
  apply read_only_bind; [by apply (read_only_await (kv_getWithMetadata _ _ _))|].
  intros r. apply read_only_bind; [|intros valueType; constructor].
  unfold metadata_valueType. destruct (snd r); constructor.
Qed.

Lemma read_only_getAll_loop (keys : list KVNamespaceListKey) (result : list Row) :
  read_only (getAll_loop keys result).
Proof.
  revert result. induction keys as [|key keys IH]; intros result.
  - constructor.
  - cbn [getAll_loop].
    apply read_only_bind; [by apply (read_only_await (kv_getWithMetadata _ _ _))|].
    intros r. apply IH.
Qed.

Lemma read_only_getAll : read_only getAll.
Proof.
  unfold getAll. apply read_only_bind; [by apply (read_only_await kv_list)|].
  intros keys. apply read_only_getAll_loop.
Qed.

Lemma read_only_new_KVController (kv : bool) : read_only (new_KVController kv).
Proof. unfold new_KVController. destruct (negb kv); constructor. Qed.

Lemma read_only_excute_get (request : Request) (env : Env) :
  read_only (excute_get request env).
Proof.
  unfold excute_get. apply read_only_try_catch; [|intros e; constructor].
  cbv zeta. destruct (falsy _); [constructor|].
  apply read_only_bind; [apply read_only_new_KVController|]. intros _.
  apply read_only_bind; [apply read_only_getItem|]. intros value.
  destruct (is_null value); constructor.
Qed.

Lemma read_only_excute_download (request : Request) (env : Env) :
  read_only (excute_download request env).
Proof.
  unfold excute_download. apply read_only_try_catch; [|intros e; constructor].
  cbv zeta. destruct (falsy _); [constructor|].
  apply read_only_bind; [apply read_only_new_KVController|]. intros _.
  apply read_only_bind; [apply read_only_getItem|]. intros value.
  destruct (is_null value); constructor.
Qed.

Lemma read_only_excute_getList (request : Request) (env : Env) :
  read_only (excute_getList request env).
Proof.
  unfold excute_getList. apply read_only_try_catch; [|intros e; constructor].
  apply read_only_bind; [apply read_only_new_KVController|]. intros _.
  apply read_only_bind; [apply read_only_getAll|]. intros list. constructor.
Qed.

Lemma read_only_excute_getKvKeys (request : Request) (env : Env) :
  read_only (excute_getKvKeys request env).
Proof.
  unfold excute_getKvKeys. apply read_only_try_catch; [|intros e; constructor].
  apply read_only_bind; [apply read_only_new_KVController|]. intros _.
  apply read_only_bind; [apply read_only_getKeys|]. intros list. constructor.
Qed.

(** X1.  The reading methods never write: whatever the store holds and
    whichever calls the service rejects, [hasKey], [getKeys], [getItem] and
    [getAll] leave the entries as they were, and every call they make is a
    get or a list. *)
Theorem controller_reads_never_write (s : store) (key : string) (options : list string) :
  (entries (snd (run (hasKey key) s)) = entries s
   ∧ forallb is_read (trace (hasKey key) s) = true)
  ∧ (entries (snd (run getKeys s)) = entries s
     ∧ forallb is_read (trace getKeys s) = true)
  ∧ (entries (snd (run (getItem key options) s)) = entries s
     ∧ forallb is_read (trace (getItem key options) s) = true)
  ∧ (entries (snd (run getAll s)) = entries s
     ∧ forallb is_read (trace getAll s) = true).
Proof.
  split; [|split; [|split]]; apply read_only_run.
  - apply read_only_hasKey.
  - apply read_only_getKeys.
  - apply read_only_getItem.
  - apply read_only_getAll.
Qed.

(** X2.  The handlers of the four GET routes that work on a store,
    [/api/get], [/api/download], [/api/getList] and [/api/getKvKeys], never
    write: for every request, environment, store and schedule of rejections
    they leave the entries as they were and call only get and list. *)
Theorem get_handlers_never_write (request : Request) (env : Env) (s : store) :
  (entries (snd (run (excute_get request env) s)) = entries s
   ∧ forallb is_read (trace (excute_get request env) s) = true)
  ∧ (entries (snd (run (excute_download request env) s)) = entries s
     ∧ forallb is_read (trace (excute_download request env) s) = true)
  ∧ (entries (snd (run (excute_getList request env) s)) = entries s
     ∧ forallb is_read (trace (excute_getList request env) s) = true)
  ∧ (entries (snd (run (excute_getKvKeys request env) s)) = entries s
     ∧ forallb is_read (trace (excute_getKvKeys request env) s) = true).
Proof.
  split; [|split; [|split]]; apply read_only_run.
  - apply read_only_excute_get.
  - apply read_only_excute_download.
  - apply read_only_excute_getList.
  - apply read_only_excute_getKvKeys.
Qed.

(** ** Single items *)

Lemma updateItem_entries (key : string) (value : kvValue)
    (options : option KVNamespacePutOptions) (s : store) :
  entries (snd (run (updateItem key value options) s))
  = match fst (run (updateItem key value options) s) with
    | inl _ => entries s
    | inr _ =>
        <[key := {| stored_value := value;
                    stored_options :=
                      updateItem_options options (stored_metadata s key) |}]>
          (entries s)
    end.
Proof.
  rewrite run_updateItem. cbv zeta.
  destruct (next_fault s); [reflexivity|].
  destruct (next_fault (received s _ _)); reflexivity.
Qed.

(** X3.  A single-item write that fails has changed nothing: when
    [addItem], [updateItem] or [deleteItem] throws, for whatever reason, the
    entries are those from before the call. *)
Theorem failed_single_writes_change_nothing (key : string) (value : kvValue)
    (options : option KVNamespacePutOptions) (s : store) (e : JsError) :
  (fst (run (addItem key value options) s) = inl e →
     entries (snd (run (addItem key value options) s)) = entries s)
  ∧ (fst (run (updateItem key value options) s) = inl e →
     entries (snd (run (updateItem key value options) s)) = entries s)
  ∧ (fst (run (deleteItem key) s) = inl e →
     entries (snd (run (deleteItem key) s)) = entries s).
Proof.
  split; [|split]; intros Hfail.
  - by rewrite addItem_entries, Hfail.
  - by rewrite updateItem_entries, Hfail.
  - by rewrite deleteItem_entries, Hfail.
Qed.

Lemma failed_single_writes_change_nothing_witness :
  let blank := mkEntry (Text "y") (mkPutOptions None None None) in
  let s := quiet {[ "a" := blank ]} in
  entries (snd (run (addItem "a" (Text "x") None) s)) = {[ "a" := blank ]}.
Proof.
  intros blank s.
  apply (proj1 (failed_single_writes_change_nothing "a" (Text "x") None s
                  (Error "Error: Key a already exists"))).
  vm_compute. reflexivity.
Defined.

(** X4.  [deleteItem] does not ask whether the key exists: when its call
    is served it succeeds, the key is absent afterwards and every other key
    is as before; on a key the store does not hold it succeeds all the same
    and the entries are unchanged. *)
Theorem deleteItem_removes_key (key : string) (s : store) :
  next_fault s = None →
  fst (run (deleteItem key) s) = inr tt
  ∧ entries (snd (run (deleteItem key) s)) !! key = None
  ∧ (∀ other, other ≠ key →
       entries (snd (run (deleteItem key) s)) !! other = entries s !! other)
  ∧ (entries s !! key = None → entries (snd (run (deleteItem key) s)) = entries s).
Proof.
  intros Hserved. rewrite run_deleteItem, Hserved. cbn [fst snd received entries].
  split; [reflexivity|]. split; [apply lookup_delete_eq|]. split.
  - intros other Hother. by apply lookup_delete_ne.
  - apply delete_id.
Qed.

Lemma deleteItem_removes_key_witness :
  fst (run (deleteItem "gone") (quiet ∅)) = inr tt
  ∧ entries (snd (run (deleteItem "gone") (quiet ∅))) = ∅.
Proof.
  destruct (deleteItem_removes_key "gone" (quiet ∅) eq_refl) as (Hok & _ & _ & Hsame).
  split; [exact Hok | by apply Hsame].
Defined.

(** ** Keys *)

Lemma listed_stored (s : store) (key : string) :
  key ∈ listed s → is_Some (entries s !! key).
Proof.
  unfold listed. intros Hin. apply subseteq_take in Hin.
  apply list_elem_of_fmap in Hin as ([k e] & -> & Hin).
  apply elem_of_map_to_list in Hin. simpl. by exists e.
Qed.

Lemma stored_listed (s : store) (key : string) :
  (size (entries s) ≤ list_limit s)%nat →
  is_Some (entries s !! key) → key ∈ listed s.
Proof.
  intros Hlimit [e He]. destruct (decide (key ∈ listed s)) as [Hin|Hout];
    [exact Hin|].
  rewrite (listed_all s key Hlimit Hout) in He. discriminate.
Qed.

Lemma listed_NoDup (s : store) : NoDup (listed s).
Proof.
  unfold listed.
  apply (sublist_NoDup _ _ (NoDup_fst_map_to_list (entries s))), sublist_take.
Qed.

(** X5.  With the list call served, [getKeys] resolves to the listed keys,
    each once and each the key of a stored entry, and [hasKey] answers true
    only for a key that is stored.  When the list call returns all the keys
    of the store, [hasKey] answers true exactly for the stored keys. *)
Theorem hasKey_finds_stored_keys (key : string) (s : store) :
  next_fault s = None →
  (∃ keys, fst (run getKeys s) = inr keys
           ∧ NoDup keys
           ∧ (∀ k, k ∈ keys → is_Some (entries s !! k))
           ∧ fst (run (hasKey key) s) = inr (includes keys key))
  ∧ (fst (run (hasKey key) s) = inr true → is_Some (entries s !! key))
  ∧ ((size (entries s) ≤ list_limit s)%nat →
     (fst (run (hasKey key) s) = inr true ↔ is_Some (entries s !! key))).
Proof.
  intros Hserved. rewrite run_getKeys, run_hasKey, Hserved. cbn [fst].
  split; [|split].
  - exists (listed s). split; [reflexivity|]. split; [apply listed_NoDup|].
    split; [apply listed_stored | reflexivity].
  - intros [= Hk]. apply includes_spec in Hk. by apply listed_stored.
  - intros Hlimit. split.
    + intros [= Hk]. apply includes_spec in Hk. by apply listed_stored.
    + intros Hstored. f_equal. apply includes_spec. by apply stored_listed.
Qed.

Lemma hasKey_finds_stored_keys_witness :
  let blank := mkEntry (Text "y") (mkPutOptions None None None) in
  let s := quiet {[ "a" := blank ]} in
  fst (run (hasKey "a") s) = inr true.
Proof.
  intros blank s.
  destruct (hasKey_finds_stored_keys "a" s eq_refl) as (_ & _ & Hiff).
  apply Hiff; [vm_compute; lia|]. by exists blank.
Defined.

(** X6.  Adding a key twice: after an [addItem] that succeeded on a store
    whose list call returns all its keys, a second [addItem] of the same key
    throws 'Key <key> already exists' (when its list call is served) and the
    entry stays as the first call wrote it. *)
Theorem addItem_twice_fails (key : string) (value value' : kvValue)
    (options options' : option KVNamespacePutOptions) (s : store) :
  let s1 := snd (run (addItem key value options) s) in
  fst (run (addItem key value options) s) = inr tt →
  (S (size (entries s)) ≤ list_limit s)%nat →
  next_fault s1 = None →
  fst (run (addItem key value' options') s1)
  = inl (new_Error (Error ("Key " +:+ key +:+ " already exists")))
  ∧ entries (snd (run (addItem key value' options') s1))
    = put_item (entries s) (mkItem key value options).
Proof.
  intros s1 Hok Hlimit Hserved.
  assert (Hentries : entries s1 = put_item (entries s) (mkItem key value options)).
  { unfold s1. by rewrite addItem_entries, Hok. }
  assert (Hlim : list_limit s1 = list_limit s).
  { unfold s1. rewrite run_addItem. cbv zeta.
    destruct (next_fault s); [reflexivity|].
    destruct (includes (listed s) key); [reflexivity|].
    destruct (next_fault (received s kv_list (entries s))); reflexivity. }
  assert (Hin : key ∈ listed s1).
  { apply stored_listed.
    - rewrite Hlim, Hentries. unfold put_item. cbn [item_key].
      rewrite map_size_insert. destruct (entries s !! key); simpl; lia.
    - rewrite Hentries. unfold put_item. cbn [item_key].
      rewrite lookup_insert_eq. by eexists. }
  apply includes_spec in Hin.
  split.
  - rewrite run_addItem, Hserved. cbv zeta. by rewrite Hin.
  - rewrite addItem_entries, run_addItem, Hserved. cbv zeta. rewrite Hin.
    exact Hentries.
Qed.

Lemma addItem_twice_fails_witness :
  let s1 := snd (run (addItem "a" (Text "x") None) (quiet ∅)) in
  fst (run (addItem "a" (Text "y") None) s1)
  = inl (Error "Error: Key a already exists").
Proof.
  intros s1.
  assert (Hok : fst (run (addItem "a" (Text "x") None) (quiet ∅)) = inr tt)
    by (vm_compute; reflexivity).
  assert (Hlimit : (S (size (entries (quiet ∅))) ≤ list_limit (quiet ∅))%nat)
    by (vm_compute; lia).
  exact (proj1 (addItem_twice_fails "a" (Text "x") (Text "y") None None (quiet ∅)
                  Hok Hlimit eq_refl)).
Defined.

(** ** Writing, then reading *)



Lemma updateItem_resolved (key : string) (value : kvValue)
    (options : option KVNamespacePutOptions) (s : store) :
  fst (run (updateItem key value options) s) = inr tt →
  entries (snd (run (updateItem key value options) s)) !! key
  = Some {| stored_value := value;
            stored_options := updateItem_options options (stored_metadata s key) |}
  ∧ stored_metadata (snd (run (updateItem key value options) s)) key
    = stored_metadata s key.
Proof.
  intros Hok.
  assert (Hentry : entries (snd (run (updateItem key value options) s)) !! key
            = Some {| stored_value := value;
                      stored_options :=
                        updateItem_options options (stored_metadata s key) |}).
  { rewrite updateItem_entries, Hok. apply lookup_insert_eq. }
  split; [exact Hentry|]. unfold stored_metadata at 1. by rewrite Hentry.
Qed.





(** X8.  [updateItem] does not ask whether the key exists: on a key that is
    missing, or stored without metadata, it succeeds when its calls are
    served and leaves the value under the key, still without metadata; every
    later [getItem] of that key then throws, whatever the service answers. *)
Theorem updateItem_creates_untagged_entry (key : string) (value : kvValue)
    (options : option KVNamespacePutOptions) (s : store) :
  serves 2 s →
  stored_metadata s key = None →
  fst (run (updateItem key value options) s) = inr tt
  ∧ stored_value <$> entries (snd (run (updateItem key value options) s)) !! key
    = Some value
  ∧ stored_metadata (snd (run (updateItem key value options) s)) key = None
  ∧ (∀ get_options (t : store),
       entries t = entries (snd (run (updateItem key value options) s)) →
       ∃ e, fst (run (getItem key get_options) t) = inl (new_Error e)).
Proof.
  intros Hserved Hnone.
  assert (Hok : fst (run (updateItem key value options) s) = inr tt)
    by (by rewrite updateItem_served).
  destruct (updateItem_resolved key value options s Hok) as [Hentry Hmeta].
  split; [exact Hok|]. split; [by rewrite Hentry|]. split; [congruence|].
  intros get_options t Ht.
  destruct (getItem_no_metadata key get_options t) as (e & He & _).
  - unfold stored_metadata. rewrite Ht. fold (stored_metadata
      (snd (run (updateItem key value options) s)) key). congruence.
  - by exists e.
Qed.

Lemma updateItem_creates_untagged_entry_witness :
  let s' := snd (run (updateItem "a" (Text "x") None) (quiet ∅)) in
  stored_value <$> entries s' !! "a" = Some (Text "x")
  ∧ ∃ e, fst (run (getItem "a" []) s') = inl (new_Error e).
Proof.
  intros s'.
  assert (Hserved : serves 2 (quiet ∅)) by (vm_compute; constructor).
  destruct (updateItem_creates_untagged_entry "a" (Text "x") None (quiet ∅)
              Hserved eq_refl) as (_ & Hvalue & _ & Hget).
  split; [exact Hvalue | by apply Hget].
Defined.

(** ** The handlers, request by request *)

Lemma excute_add_response (request : Request) (env : Env) (s : store) :
  fst (run (excute_add request env) s) =
  match body request with
  | inl e => inr (onError (message e))
  | inr body0 =>
      if falsy (body0 !! "key") || falsy (body0 !! "value")
      then inr (onBadRequest "KEY or VALUE Not Found")
      else if negb (env_kv request env) then inr (onError "KV Namespace not found")
      else
        let key := default "" (body0 !! "key") in
        let added := run (addItem key (Text (default "" (body0 !! "value"))) None) s in
        match fst added with
        | inl e => inr (onError (message e))
        | inr _ =>
            match fst (run (getItem key []) (snd added)) with
            | inl e => inr (onError (message e))
            | inr updatedValue => inr (onSuccessJson (JItem key updatedValue))
            end
        end
  end.
Proof.
  unfold excute_add. rewrite run_try_catch.
  destruct (body request) as [e|body0]; [reflexivity|].
  destruct (falsy (body0 !! "key") || falsy (body0 !! "value")); [reflexivity|].
  cbv zeta. rewrite run_bind. unfold new_KVController.
  destruct (env_kv request env); cbn [negb run fst snd]; [|reflexivity].
  rewrite run_bind.
  destruct (fst (run (addItem _ _ None) s)); [reflexivity|].
  rewrite run_bind.
  destruct (fst (run (getItem _ []) _)); reflexivity.
Qed.

Lemma excute_update_response (request : Request) (env : Env) (s : store) :
  fst (run (excute_update request env) s) =
  match body request with
  | inl e => inr (onError (message e))
  | inr body0 =>
      if falsy (body0 !! "key") || falsy (body0 !! "value")
      then inr (onBadRequest "KEY or VALUE Not Found")
      else if negb (env_kv request env) then inr (onError "KV Namespace not found")
      else
        let key := default "" (body0 !! "key") in
        let updated := run (updateItem key (Text (default "" (body0 !! "value"))) None) s in
        match fst updated with
        | inl e => inr (onError (message e))
        | inr _ =>
            match fst (run (getItem key []) (snd updated)) with
            | inl e => inr (onError (message e))
            | inr updatedValue => inr (onSuccessJson (JItem key updatedValue))
            end
        end
  end.
Proof.
  unfold excute_update. rewrite run_try_catch.
  destruct (body request) as [e|body0]; [reflexivity|].
  destruct (falsy (body0 !! "key") || falsy (body0 !! "value")); [reflexivity|].
  cbv zeta. rewrite run_bind. unfold new_KVController.
  destruct (env_kv request env); cbn [negb run fst snd]; [|reflexivity].
  rewrite run_bind.
  destruct (fst (run (updateItem _ _ None) s)); [reflexivity|].
  rewrite run_bind.
  destruct (fst (run (getItem _ []) _)); reflexivity.
Qed.

Lemma addItem_untagged (key : string) (value : kvValue) (s : store) :
  fst (run (addItem key value None) s) = inr tt →
  stored_metadata (snd (run (addItem key value None) s)) key = None.
Proof.
  intros Hok. unfold stored_metadata. rewrite addItem_entries, Hok.
  unfold put_item. cbn [item_key]. by rewrite lookup_insert_eq.
Qed.

(** X9.  [/api/add] never answers with success.  Its handler adds the item
    without metadata and then reads it back with [getItem], which throws on
    an item without metadata: whatever the request, the environment, the
    store and the service's answers, the response is not [onSuccessJson].
    When the request is well formed, the store is bound, the key is not
    listed and the two calls of [addItem] are served, the entry is written
    and the response is nevertheless [onError] (status 500). *)
Theorem excute_add_never_succeeds (request : Request) (env : Env) (s : store) :
  (∀ data, fst (run (excute_add request env) s) ≠ inr (onSuccessJson data))
  ∧ (∀ body0 key value,
       body request = inr body0 →
       body0 !! "key" = Some key → key ≠ "" →
       body0 !! "value" = Some value → value ≠ "" →
       env_kv request env = true →
       serves 2 s → key ∉ listed s →
       (∃ msg, fst (run (excute_add request env) s) = inr (onError msg)
               ∧ status (onError msg) = 500)
       ∧ stored_value <$> entries (snd (run (excute_add request env) s)) !! key
         = Some (Text value)).
Proof.
  assert (Hnever : ∀ data,
            fst (run (excute_add request env) s) ≠ inr (onSuccessJson data)).
  { intros data. rewrite excute_add_response.
    destruct (body request) as [e|body0]; [discriminate|].
    destruct (falsy (body0 !! "key") || falsy (body0 !! "value")); [discriminate|].
    destruct (negb (env_kv request env)); [discriminate|]. cbv zeta.
    destruct (fst (run (addItem _ _ None) s)) as [e|[]] eqn:Hadd; [discriminate|].
    destruct (getItem_no_metadata _ [] _ (addItem_untagged _ _ _ Hadd))
      as (e & -> & _).
    discriminate. }
  split; [exact Hnever|].
  intros body0 key value Hbody Hkey Hk Hvalue Hv Hkv Hserved Hout. split.
  - pose proof (excute_add_response request env s) as Hresponse.
    rewrite Hbody, Hkey, Hvalue, !falsy_Some, Hkv in Hresponse by assumption.
    cbn [orb negb default from_option id] in Hresponse. cbv zeta in Hresponse.
    rewrite addItem_served in Hresponse by assumption. cbn [fst snd] in Hresponse.
    destruct (fst (run (getItem key []) _)) as [e|v] eqn:Hget.
    + by exists (message e).
    + exfalso. apply (Hnever (JItem key v)). exact Hresponse.
  - rewrite (excute_add_entries request env s body0 key value) by assumption.
    rewrite addItem_served by assumption. cbn [snd received entries].
    unfold put_item. cbn [item_key item_value]. by rewrite lookup_insert_eq.
Qed.

Lemma excute_add_never_succeeds_witness :
  let request := {| origin := "https://kv.example"; searchParams := ∅;
                    headers := {[ "kv" := "KV" ]};
                    body := inr {[ "key" := "a"; "value" := "x" ]} |} in
  let env := {| AUTH_TOKEN := "secret"; KV_KEYS := Some "KV";
                kv_bound := λ name, bool_decide (name = "KV") |} in
  (∃ msg, fst (run (excute_add request env) (quiet ∅)) = inr (onError msg)
          ∧ status (onError msg) = 500)
  ∧ stored_value <$> entries (snd (run (excute_add request env) (quiet ∅))) !! "a"
    = Some (Text "x").
Proof.
  intros request env.
  destruct (excute_add_never_succeeds request env (quiet ∅)) as [_ Hwritten].
  apply (Hwritten {[ "key" := "a"; "value" := "x" ]} "a" "x");
    try reflexivity; try discriminate.
  - vm_compute. constructor.
  - vm_compute. apply not_elem_of_nil.
Defined.

(** X10.  [/api/update] answers with success only for a key that already
    had metadata: when its response is [onSuccessJson], the body held a key
    and a value, the key was stored with some metadata [m], and the response
    carries the key with the value just written and the [valueType] of [m].
    So for a key that is missing or has no metadata the response is never a
    success. *)
Theorem excute_update_succeeds_on_tagged_keys (request : Request) (env : Env)
    (s : store) (data : Json) :
  fst (run (excute_update request env) s) = inr (onSuccessJson data) →
  ∃ body0 key value m,
    body request = inr body0
    ∧ body0 !! "key" = Some key ∧ body0 !! "value" = Some value
    ∧ stored_metadata s key = Some m
    ∧ data = JItem key (Some {| result_value := Some (Text value);
                                result_valueType := m !! "valueType" |}).
Proof.
  rewrite excute_update_response.
  destruct (body request) as [e|body0]; [discriminate|].
  destruct (body0 !! "key") as [key|] eqn:Hkey; [|discriminate].
  destruct (body0 !! "value") as [value|] eqn:Hvalue;
    [|by rewrite orb_true_r].
  destruct (falsy (Some key) || falsy (Some value)); [discriminate|].
  destruct (negb (env_kv request env)); [discriminate|].
  cbn [default from_option id]. cbv zeta.
  destruct (fst (run (updateItem key (Text value) None) s)) as [e|[]] eqn:Hupdate;
    [discriminate|].
  destruct (updateItem_resolved key (Text value) None s Hupdate) as [Hentry Hmeta].
  destruct (fst (run (getItem key []) _)) as [e|v] eqn:Hget; [discriminate|].
  apply getItem_result in Hget as (m & Hm & ->). intros [= <-].
  assert (Hvalue' : stored_value <$>
                      entries (snd (run (updateItem key (Text value) None) s)) !! key
                    = Some (Text value)) by (by rewrite Hentry).
  exists body0, key, value, m. rewrite Hmeta in Hm.
  split; [reflexivity|]. split; [exact Hkey|]. split; [exact Hvalue|].
  split; [exact Hm|].
  exact (f_equal (λ x, JItem key (Some {| result_value := x;
                                         result_valueType := m !! "valueType" |}))
           Hvalue').
Qed.

Lemma excute_update_succeeds_on_tagged_keys_witness :
  let tagged := mkEntry (Text "old")
                  (mkPutOptions None None (Some {[ "valueType" := "TEXT" ]})) in
  let request := {| origin := "https://kv.example"; searchParams := ∅;
                    headers := {[ "kv" := "KV" ]};
                    body := inr {[ "key" := "a"; "value" := "new" ]} |} in
  let env := {| AUTH_TOKEN := "secret"; KV_KEYS := Some "KV";
                kv_bound := λ name, bool_decide (name = "KV") |} in
  ∃ body0 key value m,
    body request = inr body0
    ∧ body0 !! "key" = Some key ∧ body0 !! "value" = Some value
    ∧ stored_metadata (quiet {[ "a" := tagged ]}) key = Some m
    ∧ JItem "a" (Some {| result_value := Some (Text "new");
                         result_valueType := Some "TEXT" |})
      = JItem key (Some {| result_value := Some (Text value);
                           result_valueType := m !! "valueType" |}).
Proof.
  intros tagged request env.
  apply (excute_update_succeeds_on_tagged_keys request env (quiet {[ "a" := tagged ]})).
  vm_compute. reflexivity.
Defined.

Lemma excute_upload_response (file : File) (too_large : string)
    (request : Request) (env : Env) (s : store) :
  env_kv request env = true →
  fst (run (excute_upload file true too_large request env) s) =
  match fst (run (updateItem (file_name file) (Bytes (file_content file)) None) s) with
  | inl e => inr (onError (message e))
  | inr _ =>
      inr (onSuccessJson
             (JUpload (file_name file)
                (origin request +:+ "/api/download?file=" +:+ file_name file)
                (origin request +:+ "/" +:+ default "null" (headers request !! "kv")
                   +:+ "/static/" +:+ file_name file)))
  end.
Proof.
  intros Hkv. unfold excute_upload. rewrite Hkv.
  cbn [negb new_KVController]. rewrite run_try_catch.
  change (Ret () ≫= ?f) with (f tt). cbv beta zeta. rewrite run_bind.
  destruct (fst (run (updateItem _ _ None) s)); reflexivity.
Qed.

(** X11.  A file uploaded under a new name cannot be downloaded.  When
    [/api/upload] stores a file whose name had no metadata in the store (a
    new name in particular), it answers with success, and any later
    [/api/download] of that name, on the store as the upload left it, is
    answered by [onError] (status 500): the upload attaches no metadata and
    the download reads the item through [getItem]. *)
Theorem upload_then_download_fails (file : File) (too_large : string)
    (request download : Request) (env env' : Env) (s : store) :
  env_kv request env = true →
  serves 2 s →
  stored_metadata s (file_name file) = None →
  file_name file ≠ "" →
  searchParams download !! "file" = Some (file_name file) →
  (∃ data, fst (run (excute_upload file true too_large request env) s)
           = inr (onSuccessJson data))
  ∧ stored_value <$>
      entries (snd (run (excute_upload file true too_large request env) s))
        !! file_name file
    = Some (Bytes (file_content file))
  ∧ (∀ t : store,
       entries t = entries (snd (run (excute_upload file true too_large request env) s)) →
       ∃ msg, fst (run (excute_download download env') t) = inr (onError msg)
              ∧ status (onError msg) = 500).
Proof.
  intros Hkv Hserved Hnone Hname Hfile.
  destruct (updateItem_creates_untagged_entry (file_name file)
              (Bytes (file_content file)) None s Hserved Hnone)
    as (Hok & Hvalue & _ & Hget).
  split; [|split].
  - rewrite excute_upload_response, Hok by assumption. by eexists.
  - by rewrite excute_upload_entries.
  - intros t Ht. rewrite excute_download_response. cbv zeta.
    rewrite Hfile, falsy_Some by assumption. cbn [default from_option id].
    destruct (negb (env_kv download env')); [by eexists|].
    destruct (Hget ["arrayBuffer"] t) as (e & ->).
    + by rewrite Ht, excute_upload_entries.
    + by eexists.
Qed.

Lemma upload_then_download_fails_witness :
  let file := {| file_name := "a.bin"; file_content := [x00; x01] |} in
  let env := {| AUTH_TOKEN := "secret"; KV_KEYS := Some "KV";
                kv_bound := λ name, bool_decide (name = "KV") |} in
  let request := {| origin := "https://kv.example"; searchParams := ∅;
                    headers := {[ "kv" := "KV" ]}; body := inr ∅ |} in
  let download := {| origin := "https://kv.example";
                     searchParams := {[ "file" := "a.bin" ]};
                     headers := {[ "kv" := "KV" ]}; body := inr ∅ |} in
  ∃ msg, fst (run (excute_download download env)
                (snd (run (excute_upload file true "too large" request env) (quiet ∅))))
         = inr (onError msg)
         ∧ status (onError msg) = 500.
Proof.
  intros file env request download.
  assert (Hserved : serves 2 (quiet ∅)) by (vm_compute; constructor).
  destruct (upload_then_download_fails file "too large" request download env env
              (quiet ∅) eq_refl Hserved eq_refl) as (_ & _ & Hdownload).
  - discriminate.
  - reflexivity.
  - by apply Hdownload.
Defined.

(** ** Handlers and their requests *)

Lemma caught_resolves {A : Type} (p : prog A) (answer_of : JsError → A) (s : store) :
  resolves (run (try_catch p (λ error, Ret (answer_of error))) s).
Proof.
  unfold resolves. rewrite run_try_catch.
  destruct (fst (run p s)) as [e|a]; by eexists.
Qed.

(** X12.  A handler never throws: whatever the request, the environment,
    the store and the answers of the service, each of the handlers of
    [/api/verifyToken], [/api/get], [/api/update], [/api/add],
    [/api/delete], [/api/getList], [/api/getKvKeys], [/api/upload] and
    [/api/download] resolves to a response; every error on the way has been
    turned into [onError]. *)
Theorem handlers_always_respond (request : Request) (env : Env) (s : store)
    (file : File) (size_ok : bool) (too_large : string) :
  resolves (run (excute_verifyToken request env) s)
  ∧ resolves (run (excute_get request env) s)
  ∧ resolves (run (excute_update request env) s)
  ∧ resolves (run (excute_add request env) s)
  ∧ resolves (run (excute_delete request env) s)
  ∧ resolves (run (excute_getList request env) s)
  ∧ resolves (run (excute_getKvKeys request env) s)
  ∧ resolves (run (excute_upload file size_ok too_large request env) s)
  ∧ resolves (run (excute_download request env) s).
Proof. repeat split; apply caught_resolves. Qed.

(** X13.  A request that lacks its parameter is refused before the store
    is touched: [/api/get] without a key, [/api/download] without a file
    name, [/api/add] and [/api/update] without a key or a value,
    [/api/delete] without a key (absent or empty) are answered by
    [onBadRequest] (status 400), and a body that cannot be read by
    [onError]; in each case no call is made and the store is as it was. *)
Theorem incomplete_requests_touch_nothing (request : Request) (env : Env) (s : store) :
  (falsy (searchParams request !! "key") = true →
     run (excute_get request env) s = (inr (onBadRequest "KEY Not Found"), s))
  ∧ (falsy (searchParams request !! "file") = true →
     run (excute_download request env) s
     = (inr (onBadRequest "File name is required"), s))
  ∧ (∀ body0,
       body request = inr body0 →
       falsy (body0 !! "key") || falsy (body0 !! "value") = true →
       run (excute_add request env) s
       = (inr (onBadRequest "KEY or VALUE Not Found"), s)
       ∧ run (excute_update request env) s
         = (inr (onBadRequest "KEY or VALUE Not Found"), s))
  ∧ (∀ body0,
       body request = inr body0 → falsy (body0 !! "key") = true →
       run (excute_delete request env) s = (inr (onBadRequest "KEY Not Found"), s))
  ∧ (∀ e,
       body request = inl e →
       run (excute_add request env) s = (inr (onError (message e)), s)
       ∧ run (excute_update request env) s = (inr (onError (message e)), s)
       ∧ run (excute_delete request env) s = (inr (onError (message e)), s)).
Proof.
  split; [|split; [|split; [|split]]].
  - intros Hkey. unfold excute_get. cbv zeta. by rewrite Hkey.
  - intros Hfile. unfold excute_download. cbv zeta. by rewrite Hfile.
  - intros body0 Hbody Hfalsy. unfold excute_add, excute_update.
    by rewrite Hbody, Hfalsy.
  - intros body0 Hbody Hfalsy. unfold excute_delete. by rewrite Hbody, Hfalsy.
  - intros e Hbody. unfold excute_add, excute_update, excute_delete.
    by rewrite Hbody.
Qed.

Lemma incomplete_requests_touch_nothing_witness :
  let request := {| origin := "https://kv.example"; searchParams := {[ "key" := "" ]};
                    headers := {[ "kv" := "KV" ]}; body := inr ∅ |} in
  let env := {| AUTH_TOKEN := "secret"; KV_KEYS := Some "KV";
                kv_bound := λ name, bool_decide (name = "KV") |} in
  run (excute_get request env) (quiet ∅)
  = (inr (onBadRequest "KEY Not Found"), quiet ∅).
Proof.
  intros request env.
  exact (proj1 (incomplete_requests_touch_nothing request env (quiet ∅)) eq_refl).
Defined.



(** X15.  [/api/verifyToken] answers 'AUTH_TOKEN is correct' exactly when
    the body holds a non-empty token equal to the environment's
    [AUTH_TOKEN]; a missing or empty token is answered by [onBadRequest]
    (400), another token by [onUnauthorized] (401), an unreadable body by
    [onError].  It makes no call on any store. *)
Theorem verifyToken_compares_token (request : Request) (env : Env) (s : store) :
  snd (run (excute_verifyToken request env) s) = s
  ∧ (fst (run (excute_verifyToken request env) s)
     = inr (onSuccessJson (JString "AUTH_TOKEN is correct"))
     ↔ ∃ data, body request = inr data
               ∧ data !! "token" = Some (AUTH_TOKEN env)
               ∧ AUTH_TOKEN env ≠ "")
  ∧ (∀ data token,
       body request = inr data → data !! "token" = Some token →
       token ≠ "" → token ≠ AUTH_TOKEN env →
       fst (run (excute_verifyToken request env) s) = inr (onUnauthorized "Unauthorized")
       ∧ status (onUnauthorized "Unauthorized") = 401)
  ∧ (∀ data,
       body request = inr data → falsy (data !! "token") = true →
       ∃ msg, fst (run (excute_verifyToken request env) s) = inr (onBadRequest msg)
              ∧ status (onBadRequest msg) = 400)
  ∧ (∀ e, body request = inl e →
       fst (run (excute_verifyToken request env) s) = inr (onError (message e))).
Proof.
  unfold excute_verifyToken.
  destruct (body request) as [e|data] eqn:Hbody.
  { split; [reflexivity|]. split; [|split; [|split]].
    - split; [discriminate | intros (data & [=] & _)].
    - intros data token [=].
    - intros data [=].
    - by intros e' [= <-]. }
  destruct (data !! "token") as [token|] eqn:Htoken.
  2: { split; [reflexivity|]. split; [|split; [|split]].
       - split; [discriminate | intros (data' & [= <-] & Habs & _); congruence].
       - intros data' token [= <-]. congruence.
       - intros data' [= <-] _. by eexists.
       - intros e [=]. }
  unfold falsy. destruct (decide (token = "")) as [->|Hne].
  { split; [reflexivity|]. split; [|split; [|split]].
    - split; [discriminate|]. intros (data' & [= <-] & Heq & Hauth). congruence.
    - intros data' token' [= <-]. congruence.
    - intros data' [= <-] _. by eexists.
    - intros e [=]. }
  rewrite (bool_decide_eq_false_2 _ Hne).
  destruct (decide (token = AUTH_TOKEN env)) as [->|Hother].
  - rewrite (bool_decide_eq_true_2 _ eq_refl). cbn [negb].
    split; [reflexivity|]. split; [|split; [|split]].
    + split; [intros _; by exists data | reflexivity].
    + intros data' token' [= <-]. congruence.
    + intros data' [= <-] Hfalsy. rewrite Htoken in Hfalsy. simpl in Hfalsy.
      by rewrite (bool_decide_eq_false_2 _ Hne) in Hfalsy.
    + intros e [=].
  - rewrite bool_decide_eq_false_2 by congruence. cbn [negb].
    split; [reflexivity|]. split; [|split; [|split]].
    + split; [discriminate|]. intros (data' & [= <-] & Heq & _). congruence.
    + intros data' token' [= <-] Htoken' _ _. split; reflexivity.
    + intros data' [= <-] Hfalsy. rewrite Htoken in Hfalsy. simpl in Hfalsy.
      by rewrite (bool_decide_eq_false_2 _ Hne) in Hfalsy.
    + intros e [=].
Qed.

Lemma verifyToken_compares_token_witness :
  let request := {| origin := "https://kv.example"; searchParams := ∅;
                    headers := ∅; body := inr {[ "token" := "guess" ]} |} in
  let env := {| AUTH_TOKEN := "secret"; KV_KEYS := None; kv_bound := λ _, false |} in
  fst (run (excute_verifyToken request env) (quiet ∅)) = inr (onUnauthorized "Unauthorized").
Proof.
  intros request env.
  destruct (verifyToken_compares_token request env (quiet ∅)) as (_ & _ & Hwrong & _).
  apply (Hwrong {[ "token" := "guess" ]} "guess"); [reflexivity | reflexivity | | ];
    discriminate.
Defined.

(** X16.  [/api/delete] has no 'not found' answer: for a request with a
    key, on a bound store whose delete call is served, it answers with
    success whether or not the key was stored, and the key is absent
    afterwards, every other key as before. *)
Theorem excute_delete_removes_key (request : Request) (env : Env) (s : store)
    (body0 : jsObject) (key : string) :
  body request = inr body0 →
  body0 !! "key" = Some key → key ≠ "" →
  env_kv request env = true →
  next_fault s = None →
  fst (run (excute_delete request env) s) = inr (onSuccessJson JNone)
  ∧ entries (snd (run (excute_delete request env) s)) = delete key (entries s).
Proof.
  intros Hbody Hkey Hne Hkv Hserved. unfold excute_delete.
  rewrite Hbody, Hkey, falsy_Some, Hkv by assumption.
  cbn [negb new_KVController default from_option id]. rewrite run_try_catch.
  change (Ret () ≫= ?f) with (f tt). cbv beta. rewrite run_bind.
  rewrite run_deleteItem, Hserved. split; reflexivity.
Qed.

Lemma excute_delete_removes_key_witness :
  let request := {| origin := "https://kv.example"; searchParams := ∅;
                    headers := {[ "kv" := "KV" ]};
                    body := inr {[ "key" := "gone" ]} |} in
  let env := {| AUTH_TOKEN := "secret"; KV_KEYS := Some "KV";
                kv_bound := λ name, bool_decide (name = "KV") |} in
  fst (run (excute_delete request env) (quiet ∅)) = inr (onSuccessJson JNone).
Proof.
  intros request env.
  refine (proj1 (excute_delete_removes_key request env (quiet ∅)
                   {[ "key" := "gone" ]} "gone" eq_refl eq_refl _ eq_refl eq_refl)).
  discriminate.
Defined.

(** ** Batches that succeed *)

Lemma for_await_deleteItem_served (keys : list string) (s : store) :
  serves (length keys) s →
  fst (run (for_await keys deleteItem) s) = inr tt.
Proof.
  revert s. induction keys as [|key keys IH]; intros s Hserved.
  - reflexivity.
  - rewrite run_for_await_cons, run_deleteItem.
    rewrite (serves_next _ s Hserved). cbn [fst snd].
    apply IH. by apply serves_received.
Qed.

Lemma foldl_delete_lookup (keys : list string) (m : gmap string entry) (key : string) :
  foldl (λ m k, delete k m) m keys !! key
  = if bool_decide (key ∈ keys) then None else m !! key.
Proof.
  revert m. induction keys as [|k keys IH]; intros m.
  - reflexivity.
  - cbn [foldl]. rewrite IH. destruct (decide (key = k)) as [->|Hne].
    + rewrite lookup_delete_eq.
      rewrite (bool_decide_eq_true_2 (k ∈ k :: keys)) by (by left).
      by destruct (bool_decide (k ∈ keys)).
    + rewrite lookup_delete_ne by congruence.
      destruct (decide (key ∈ keys)) as [Hin|Hout].
      * rewrite !bool_decide_eq_true_2; [reflexivity | by right | exact Hin].
      * rewrite !bool_decide_eq_false_2; [reflexivity | | exact Hout].
        intros [->|Hin]%elem_of_cons; contradiction.
Qed.

(** X17.  [deleteItems] on a non-empty array whose calls are all served
    succeeds, whether or not the keys were stored; afterwards every key of
    the array is absent and every other key is as before.  It makes one
    delete call per element, in the order of the array. *)
Theorem deleteItems_removes_all (keys : list string) (s : store) :
  keys ≠ [] →
  serves (length keys) s →
  fst (run (deleteItems keys) s) = inr tt
  ∧ (∀ key, key ∈ keys → entries (snd (run (deleteItems keys) s)) !! key = None)
  ∧ (∀ key, key ∉ keys →
       entries (snd (run (deleteItems keys) s)) !! key = entries s !! key)
  ∧ trace (deleteItems keys) s = map kv_delete keys.
Proof.
  intros Hkeys Hserved.
  pose proof (for_await_deleteItem_served keys s Hserved) as Hloop.
  pose proof (for_await_deleteItem_entries keys s Hloop) as Hentries.
  assert (Hrun : run (deleteItems keys) s = run (for_await keys deleteItem) s).
  { unfold deleteItems. rewrite run_rethrow.
    rewrite bool_decide_eq_false_2 by (destruct keys; [congruence | discriminate]).
    change (for_await keys (λ key, deleteItem key)) with (for_await keys deleteItem).
    rewrite Hloop. by destruct (run (for_await keys deleteItem) s) as [[e|[]] s']. }
  rewrite Hrun. split; [exact Hloop|]. split; [|split].
  - intros key Hin. rewrite Hentries, foldl_delete_lookup.
    by rewrite bool_decide_eq_true_2.
  - intros key Hout. rewrite Hentries, foldl_delete_lookup.
    by rewrite bool_decide_eq_false_2.
  - apply (app_inv_head (log s)). rewrite <- run_log_trace, Hrun.
    clear Hkeys Hloop Hentries Hrun. revert s Hserved.
    induction keys as [|key keys IH]; intros s Hserved.
    + simpl. by rewrite app_nil_r.
    + rewrite run_for_await_cons, run_deleteItem.
      rewrite (serves_next _ s Hserved). cbn [fst snd].
      rewrite IH by (by apply serves_received). simpl.
      by rewrite <- app_assoc.
Qed.

Lemma deleteItems_removes_all_witness :
  let blank := mkEntry (Text "x") (mkPutOptions None None None) in
  let s := quiet {[ "a" := blank; "b" := blank ]} in
  entries (snd (run (deleteItems ["a"; "missing"]) s)) !! "a" = None.
Proof.
  intros blank s.
  assert (Hserved : serves (length ["a"; "missing"]) s) by (vm_compute; constructor).
  destruct (deleteItems_removes_all ["a"; "missing"] s ltac:(discriminate) Hserved)
    as (_ & Hgone & _).
  apply Hgone. by left.
Defined.

Lemma foldl_put_item_present (items : list Item) (m : gmap string entry) (key : string) :
  is_Some (m !! key) ∨ key ∈ map item_key items →
  is_Some (foldl put_item m items !! key).
Proof.
  revert m. induction items as [|item items IH]; intros m Hkey.
  - destruct Hkey as [Hm|Hin]; [exact Hm | by apply elem_of_nil in Hin].
  - cbn [foldl]. apply IH. unfold put_item at 1.
    destruct (decide (key = item_key item)) as [->|Hne].
    + left. rewrite lookup_insert_eq. by eexists.
    + rewrite lookup_insert_ne by congruence.
      destruct Hkey as [Hm|Hin]; [by left|]. right.
      simpl in Hin. apply elem_of_cons in Hin as [Heq|Hin]; [congruence | exact Hin].
Qed.

(** X18.  An [addItems] that succeeded was given at least one item and has
    put every item, in the order of the array, with the options [addItem]
    gives them: the entries are the old ones with each item put in turn, and
    every key of the array is stored. *)
Theorem addItems_adds_all (items : list Item) (s : store) :
  fst (run (addItems items) s) = inr tt →
  items ≠ []
  ∧ entries (snd (run (addItems items) s)) = foldl put_item (entries s) items
  ∧ (∀ item, item ∈ items →
       is_Some (entries (snd (run (addItems items) s)) !! item_key item)).
Proof.
  intros Hok.
  assert (Hitems : items ≠ []) by (intros ->; discriminate).
  assert (Hrun : run (addItems items) s
                 = match fst (run (for_await items addItems_body) s) with
                   | inl e => (inl (new_Error e), snd (run (for_await items addItems_body) s))
                   | inr a => (inr a, snd (run (for_await items addItems_body) s))
                   end).
  { unfold addItems. rewrite run_rethrow.
    rewrite bool_decide_eq_false_2 by (destruct items; [congruence | discriminate]).
    reflexivity. }
  rewrite Hrun in Hok |- *.
  destruct (fst (run (for_await items addItems_body) s)) as [e|[]] eqn:Hloop;
    [discriminate|].
  cbn [snd]. pose proof (for_await_addItems_entries items s Hloop) as Hentries.
  split; [exact Hitems|]. split; [exact Hentries|].
  intros item Hin. rewrite Hentries. apply foldl_put_item_present. right.
  apply list_elem_of_fmap. by exists item.
Qed.

Lemma addItems_adds_all_witness :
  let batch := [mkItem "a" (Text "1") None; mkItem "b" (Text "2") None] in
  is_Some (entries (snd (run (addItems batch) (quiet ∅))) !! "b").
Proof.
  intros batch.
  assert (Hok : fst (run (addItems batch) (quiet ∅)) = inr tt)
    by (vm_compute; reflexivity).
  destruct (addItems_adds_all batch (quiet ∅) Hok) as (_ & _ & Hpresent).
  apply (Hpresent (mkItem "b" (Text "2") None)). right. by left.
Defined.

(** ** Listing the values *)



(** ** Adding, then reading *)






(** ** An update racing with a delete *)

(** X22.  [updateItem] reads the metadata and then puts, in two calls.  If
    a [deleteItem] of the same key is served between the two, both calls
    succeed and the key is stored again after the delete, with the new value
    and the metadata the update had read. *)
Theorem updateItem_undoes_interleaved_delete (key : string) (value : kvValue)
    (options : option KVNamespacePutOptions) (s : store) :
  faults s = [] →
  interleave [true; false; true] (updateItem key value options) (deleteItem key) s
  = (Ret tt, Ret tt,
     {| entries := <[key := {| stored_value := value;
                               stored_options :=
                                 updateItem_options options (stored_metadata s key) |}]>
                     (delete key (entries s));
        list_limit := list_limit s;
        faults := [];
        log := log s ++ [kv_getWithMetadata key options 60; kv_delete key;
                         kv_put key value
                           (updateItem_options options (stored_metadata s key))] |}).
Proof.
  intros Hfaults. destruct s as [m limit fs calls]. simpl in Hfaults. subst fs.
  cbn. unfold received. cbn [entries list_limit faults log tail].
  rewrite <- !app_assoc. reflexivity.
Qed.

Lemma updateItem_undoes_interleaved_delete_witness :
  let tagged := mkEntry (Text "old")
                  (mkPutOptions None None (Some {[ "valueType" := "TEXT" ]})) in
  let s := quiet {[ "a" := tagged ]} in
  ∃ s', interleave [true; false; true] (updateItem "a" (Text "new") None)
          (deleteItem "a") s = (Ret tt, Ret tt, s')
        ∧ stored_value <$> entries s' !! "a" = Some (Text "new").
Proof.
  intros tagged s. eexists. split.
  - exact (updateItem_undoes_interleaved_delete "a" (Text "new") None s eq_refl).
  - vm_compute. reflexivity.
Defined.
